(** * Interactive volcano plot: the statistical core of [app.js]

    A shallow embedding of the pure core of [app.js] (Benjamini–Hochberg
    adjustment, the seeded generator and the synthetic data, the
    classifier, the cutoff lookup and the interaction state with its event
    handlers), followed by the properties the specification states about
    it and by further properties of the code.

    JavaScript numbers are IEEE-754 binary64.  The functions below are
    written once, over an interface [Number] of the arithmetic the source
    uses, and read at two instances:
    - [float], Rocq's primitive binary64 floats, which evaluate the very
      operations the JavaScript engine performs and replay concrete
      inputs bit for bit;
    - [Qc], exact rational arithmetic, in which the theorems that depend
      on the laws of order are proved.  What these theorems conclude are
      comparisons between numbers of the program, not the values of sums,
      products or quotients, which binary64 rounds.
    Theorems that depend on no law of arithmetic are proved for every
    instance, binary64 included.

    JavaScript strings are sequences of UTF-16 code units; [trim] is
    modelled on them with the white space of ECMAScript, and
    [toLowerCase], whose Unicode tables are the engine's, is a
    parameter. *)

From Stdlib Require Import Floats.PrimFloat Numbers.Cyclic.Int63.Uint63.
From Stdlib Require Import ZArith QArith Qcanon.
From Stdlib Require Qcabs.
From Stdlib Require Import Lqa.
From stdpp Require Import base option list numbers strings gmap sorting pretty.

#[local] Set Warnings "-inexact-float,-clear-no-such-hyp".

Local Open Scope Z_scope.

(** ** Numbers *)

Class Number (A : Type) := {
  num_of_Z : Z → A;          (* an integer literal, a length or an index *)
  num_lit : Q → A;           (* a decimal literal such as [1.2] *)
  nadd : A → A → A;
  nsub : A → A → A;
  nmul : A → A → A;
  ndiv : A → A → A;
  nneg : A → A;
  nle : A → A → bool;        (* [a <= b] *)
  nlt : A → A → bool;        (* [a < b] *)
  nmin : A → A → A;          (* [Math.min(a, b)] *)
  nmax : A → A → A;          (* [Math.max(a, b)] *)
}.

Definition nge `{Number A} (a b : A) : bool := nle b a.   (* [a >= b] *)
Definition ngt `{Number A} (a b : A) : bool := nlt b a.   (* [a > b] *)

Module ExactNumber.

Definition min (a b : Qc) : Qc := if decide (b < a)%Qc then b else a.
Definition max (a b : Qc) : Qc := if decide (a < b)%Qc then b else a.

#[global] Instance number : Number Qc := {|
  num_of_Z := Qc_of_Z;
  num_lit := Q2Qc;
  nadd := Qcplus;
  nsub := Qcminus;
  nmul := Qcmult;
  ndiv := Qcdiv;
  nneg := Qcopp;
  nle a b := bool_decide (a ≤ b)%Qc;
  nlt a b := bool_decide (a < b)%Qc;
  nmin := min;
  nmax := max;
|}.

End ExactNumber.

Module Binary64.

Definition of_Z (z : Z) : float :=
  match z with
  | Z.neg p => PrimFloat.opp (PrimFloat.of_uint63 (Uint63.of_Z (Z.pos p)))
  | _ => PrimFloat.of_uint63 (Uint63.of_Z z)
  end.

(* The double nearest to the decimal [n/d]: division is correctly
   rounded, and the numerators and denominators used are exact. *)
Definition of_Q (q : Q) : float :=
  PrimFloat.div (of_Z (Qnum q)) (of_Z (Z.pos (Qden q))).

(* [Math.min] and [Math.max]: NaN is contagious and [-0 < +0]. *)
Definition min (a b : float) : float :=
  if PrimFloat.is_nan a then a
  else if PrimFloat.is_nan b then b
  else if PrimFloat.ltb b a then b
  else if PrimFloat.ltb a b then a
  else if PrimFloat.get_sign a then a else b.

Definition max (a b : float) : float :=
  if PrimFloat.is_nan a then a
  else if PrimFloat.is_nan b then b
  else if PrimFloat.ltb a b then b
  else if PrimFloat.ltb b a then a
  else if PrimFloat.get_sign a then b else a.

#[global] Instance number : Number float := {|
  num_of_Z := of_Z;
  num_lit := of_Q;
  nadd := PrimFloat.add;
  nsub := PrimFloat.sub;
  nmul := PrimFloat.mul;
  ndiv := PrimFloat.div;
  nneg := PrimFloat.opp;
  nle := PrimFloat.leb;
  nlt := PrimFloat.ltb;
  nmin := min;
  nmax := max;
|}.

End Binary64.

(** ** Arrays *)

(** [Array.prototype.sort(cmp)]: the comparator returns a number, [x] is
    placed after [y] when [cmp(x, y) > 0], and the sort is stable.  For a
    consistent comparator the result does not depend on the engine's
    algorithm; it is computed here by stable insertion. *)
Section sort.
Context `{Number A} {B : Type} (cmp : B → B → A).

Fixpoint sort_insert (x : B) (l : list B) : list B :=
  match l with
  | [] => [x]
  | y :: l' =>
      if ngt (cmp x y) (num_of_Z 0) then y :: sort_insert x l' else x :: l
  end.

Definition sort (l : list B) : list B := foldr sort_insert [] l.
End sort.

(* [l[z]]: [undefined] ([None]) outside the array, also at a negative index. *)
Definition array_get {B : Type} (l : list B) (z : Z) : option B :=
  if z <? 0 then None else l !! Z.to_nat z.

(** ** Strings

    A JavaScript string is a sequence of UTF-16 code units.  The string
    literals of the source are ASCII; [js] gives the code units of one. *)

Abbreviation jsstring := (list N).

Definition js (s : string) : jsstring :=
  Ascii.N_of_ascii <$> String.list_ascii_of_string s.

(* The code points [trim] removes, [WhiteSpace] and [LineTerminator] of
   ECMAScript: tab, line feed, vertical tab, form feed, carriage return,
   space, no-break space, the other space separators, line and paragraph
   separator and the byte order mark.  Each is a single code unit. *)
Definition is_white_space (c : N) : bool :=
  ((9 <=? c) && (c <=? 13) || (c =? 32) || (c =? 0xA0) || (c =? 0x1680)
   || (0x2000 <=? c) && (c <=? 0x200A) || (c =? 0x2028) || (c =? 0x2029)
   || (c =? 0x202F) || (c =? 0x205F) || (c =? 0x3000) || (c =? 0xFEFF))%N.

Fixpoint trimStart (s : jsstring) : jsstring :=
  match s with
  | [] => []
  | c :: s' => if is_white_space c then trimStart s' else s
  end.

Fixpoint trimEnd (s : jsstring) : jsstring :=
  match s with
  | [] => []
  | c :: s' =>
      match trimEnd s' with
      | [] => if is_white_space c then [] else [c]
      | t => c :: t
      end
  end.

Definition trim (s : jsstring) : jsstring := trimEnd (trimStart s).

(* [s.startsWith(q)] *)
Fixpoint startsWith (s q : jsstring) : bool :=
  match q, s with
  | [], _ => true
  | _ :: _, [] => false
  | c :: q', d :: s' => (c =? d)%N && startsWith s' q'
  end.

(* [s.includes(q)] *)
Fixpoint includes (s q : jsstring) : bool :=
  startsWith s q ||
  match s with
  | [] => false
  | _ :: s' => includes s' q
  end.

(* A code unit of the ASCII range, and its lower-case form: [A]-[Z] go
   to [a]-[z]. *)
Definition is_ascii (c : N) : bool := (c <? 128)%N.

Definition ascii_lower (c : N) : N :=
  if ((65 <=? c) && (c <=? 90))%N then (c + 32)%N else c.

(** [String.prototype.toLowerCase] is the engine's: the case conversion
    of the Unicode standard, independent of the locale.  Its tables are
    not spelled out here; it is a parameter, of which one fact is used: a
    string of ASCII characters is converted character by character, [A]-[Z]
    to [a]-[z]. *)
Class StringLib := {
  toLowerCase : jsstring → jsstring;
  toLowerCase_ascii (s : jsstring) :
    Forall (λ c, is_ascii c = true) s → toLowerCase s = ascii_lower <$> s;
}.

(* An implementation that converts the letters of the ASCII range and no
   others.  The examples are run with it; they apply it to ASCII strings
   only, on which every implementation returns the same. *)
Definition basic_latin : StringLib :=
  {| toLowerCase := fmap ascii_lower; toLowerCase_ascii := λ _ _, eq_refl |}.

(** ** Benjamini–Hochberg FDR *)

Section bh.
Context `{Number A}.

(* The entries [{ p, i }] of [indexed]. *)
Record indexed_p := { ip_p : A; ip_i : nat }.

(* [for (let k = 0; k < n; k++) { ... }]; [fuel] is [n - k].  [fdr] starts
   as [new Array(n)], whose slots are empty ([None]).  The outer [None] is
   the TypeError of reading [.p] of [undefined]. *)
Fixpoint bh_loop (n : nat) (indexed : list indexed_p) (fuel k : nat)
    (fdr : list (option A)) : option (list (option A)) :=
  match fuel with
  | O => Some fdr
  | S fuel' =>
      e ← indexed !! k;
      let q := ndiv (nmul (ip_p e) (num_of_Z (Z.of_nat n)))
                    (num_of_Z (Z.of_nat k + 1)) in
      bh_loop n indexed fuel' (S k) (<[ip_i e := Some (nmin (num_of_Z 1) q)]> fdr)
  end.

Definition benjaminiHochberg (pvals : list A) : option (list (option A)) :=
  let n := length pvals in
  let indexed :=
    sort (λ a b, nsub (ip_p a) (ip_p b))
         (imap (λ i p, {| ip_p := p; ip_i := i |}) pvals) in
  bh_loop n indexed n 0 (replicate n None).

End bh.

Arguments indexed_p A : clear implicits.

(** ** Seeded RNG (simple LCG) *)

(** The captured variable [s] always holds an integer: the seed, then an
    unsigned 32-bit value.  It is modelled as a [Z]; a value of magnitude
    [2^1024] or more stands for an infinity. *)

(* The integer nearest to [x] with a 53-bit significand, ties to even: the
   binary64 result of an operation whose exact value is the integer [x]. *)
Definition round_binary64 (x : Z) : Z :=
  let a := Z.abs x in
  let e := Z.log2 a - 52 in
  if e <=? 0 then x
  else
    let q := Z.shiftr a e in
    let r := Z.land a (Z.ones e) in
    let half := Z.shiftl 1 (e - 1) in
    let q' := if r <? half then q
              else if half <? r then q + 1
              else if Z.even q then q else q + 1 in
    Z.sgn x * Z.shiftl q' e.

(* [x >>> 0] for an integer-valued [x]: infinities give [0]. *)
Definition ToUint32 (x : Z) : Z :=
  if 2 ^ 1024 <=? Z.abs x then 0 else x mod 2 ^ 32.

(* [s = (s * 1664525 + 1013904223) >>> 0] *)
Definition lcg_next (s : Z) : Z :=
  ToUint32 (round_binary64 (round_binary64 (s * 1664525) + 1013904223)).

Section rng.
Context `{Number A}.

(* One call of the closure whose captured variable holds [s]: the value
   returned and the new content of the variable. *)
Definition rng_call (s : Z) : A * Z :=
  let s' := lcg_next s in
  (ndiv (num_of_Z s') (num_of_Z 0xffffffff), s').

(* The first [k] values returned by [createRng(seed)]. *)
Fixpoint draws (k : nat) (s : Z) : list A :=
  match k with
  | O => []
  | S k' => let '(x, s') := rng_call s in x :: draws k' s'
  end.

(** Every call of [createRng] makes a closure with a variable [s] of its
    own.  The store holds these variables; a generator is the index of
    its variable. *)
Definition createRng (seed : Z) (σ : list Z) : nat * list Z :=
  (length σ, σ ++ [seed]).

Definition callRng (g : nat) (σ : list Z) : option (A * list Z) :=
  s ← σ !! g;
  let '(x, s') := rng_call s in
  Some (x, <[g := s']> σ).

(* Calls of two generators in any order ([true]: the first one), with the
   values each one returned. *)
Fixpoint run_two (g1 g2 : nat) (sched : list bool) (σ : list Z)
    : option (list A * list A) :=
  match sched with
  | [] => Some ([], [])
  | b :: sched' =>
      r ← callRng (if b then g1 else g2) σ;
      t ← run_two g1 g2 sched' r.2;
      Some (if b then (r.1 :: t.1, t.2) else (t.1, r.1 :: t.2))
  end.

End rng.

(** ** Data and classification *)

Inductive category := sig_up | sig_down | not_sig.

#[global] Instance category_eq_dec : EqDecision category.
Proof. solve_decision. Defined.

Section core.
Context `{Number A} {SL : StringLib}.

(* A point of [state.data].  [_category] is absent until [redraw] sets it. *)
Record datum := {
  id : jsstring;
  geneSymbol : jsstring;
  log2FC : A;
  pval : A;
  fdr : A;
  negLog10P : A;
  _category : option category;
}.

Definition set_category (c : category) (d : datum) : datum :=
  {| id := id d; geneSymbol := geneSymbol d; log2FC := log2FC d;
     pval := pval d; fdr := fdr d; negLog10P := negLog10P d;
     _category := Some c |}.

Definition getCategory (d : datum) (fcThreshold fdrThreshold : A) : category :=
  if nle (fdr d) fdrThreshold && nge (log2FC d) fcThreshold then sig_up
  else if nle (fdr d) fdrThreshold && nle (log2FC d) (nneg fcThreshold)
  then sig_down
  else not_sig.

(** *** Cutoff lookup *)

(* [for (let k = 0; k < m; k++) { ... }] followed by the final [return];
   [fuel] is [m - k].  [None] is the TypeError of reading [.pval] of
   [undefined]. *)
Fixpoint pvalue_loop (sorted : list datum) (m : nat) (fdrThreshold : A)
    (fuel k : nat) : option A :=
  match fuel with
  | O => pval <$> array_get sorted (Z.of_nat m - 1)
  | S fuel' =>
      d ← sorted !! k;
      let q := ndiv (nmul (pval d) (num_of_Z (Z.of_nat m)))
                    (num_of_Z (Z.of_nat k + 1)) in
      if ngt q fdrThreshold then
        if decide (k = 0%nat) then pval <$> array_get sorted 0
        else pval <$> array_get sorted (Z.of_nat k - 1)
      else pvalue_loop sorted m fdrThreshold fuel' (S k)
  end.

Definition pvalueAtFdrThreshold (data : list datum) (fdrThreshold : A)
    : option A :=
  let sorted := sort (λ a b, nsub (pval a) (pval b)) data in
  let m := length sorted in
  pvalue_loop sorted m fdrThreshold m 0.

(** *** State *)

(* [{ x: [min, max], y: [min, max] }] *)
Record zoom := { zoom_x : A * A; zoom_y : A * A }.

Record State := {
  data : list datum;
  fcThreshold : A;
  fdrThreshold : A;
  topN : Z;
  showLabels : bool;
  pinned : gset jsstring;
  selected : gset jsstring;
  searchHighlightId : option jsstring;
  pvalAtFdr : option A;
  zoomDomain : option zoom;
}.

Definition set_data v (st : State) : State :=
  {| data := v; fcThreshold := fcThreshold st;
     fdrThreshold := fdrThreshold st; topN := topN st;
     showLabels := showLabels st; pinned := pinned st;
     selected := selected st; searchHighlightId := searchHighlightId st;
     pvalAtFdr := pvalAtFdr st; zoomDomain := zoomDomain st |}.
Definition set_fcThreshold v (st : State) : State :=
  {| data := data st; fcThreshold := v;
     fdrThreshold := fdrThreshold st; topN := topN st;
     showLabels := showLabels st; pinned := pinned st;
     selected := selected st; searchHighlightId := searchHighlightId st;
     pvalAtFdr := pvalAtFdr st; zoomDomain := zoomDomain st |}.
Definition set_fdrThreshold v (st : State) : State :=
  {| data := data st; fcThreshold := fcThreshold st;
     fdrThreshold := v; topN := topN st;
     showLabels := showLabels st; pinned := pinned st;
     selected := selected st; searchHighlightId := searchHighlightId st;
     pvalAtFdr := pvalAtFdr st; zoomDomain := zoomDomain st |}.
Definition set_pinned v (st : State) : State :=
  {| data := data st; fcThreshold := fcThreshold st;
     fdrThreshold := fdrThreshold st; topN := topN st;
     showLabels := showLabels st; pinned := v;
     selected := selected st; searchHighlightId := searchHighlightId st;
     pvalAtFdr := pvalAtFdr st; zoomDomain := zoomDomain st |}.
Definition set_searchHighlightId v (st : State) : State :=
  {| data := data st; fcThreshold := fcThreshold st;
     fdrThreshold := fdrThreshold st; topN := topN st;
     showLabels := showLabels st; pinned := pinned st;
     selected := selected st; searchHighlightId := v;
     pvalAtFdr := pvalAtFdr st; zoomDomain := zoomDomain st |}.
Definition set_pvalAtFdr v (st : State) : State :=
  {| data := data st; fcThreshold := fcThreshold st;
     fdrThreshold := fdrThreshold st; topN := topN st;
     showLabels := showLabels st; pinned := pinned st;
     selected := selected st; searchHighlightId := searchHighlightId st;
     pvalAtFdr := v; zoomDomain := zoomDomain st |}.
Definition set_zoomDomain v (st : State) : State :=
  {| data := data st; fcThreshold := fcThreshold st;
     fdrThreshold := fdrThreshold st; topN := topN st;
     showLabels := showLabels st; pinned := pinned st;
     selected := selected st; searchHighlightId := searchHighlightId st;
     pvalAtFdr := pvalAtFdr st; zoomDomain := v |}.

(** The part of [redraw] that writes to [state]: [drawThresholdLines]
    stores the cutoff in [state.pvalAtFdr] and every point gets its
    [_category].  Drawing itself is outside the model.  On a non-empty
    dataset the cutoff lookup does not throw, so its result is stored as
    it is. *)
Definition redraw (st : State) : State :=
  if decide (length (data st) = 0%nat) then st
  else
    let fc := fcThreshold st in
    let fdr := fdrThreshold st in
    let st := set_pvalAtFdr (pvalueAtFdrThreshold (data st) fdr) st in
    set_data ((λ d, set_category (getCategory d fc fdr) d) <$> data st) st.

(** *** Event handlers *)

(* The click handler of a point [d]; [e.preventDefault()] concerns the
   event only. *)
Definition point_click (d : datum) (st : State) : State :=
  if decide (0 < size (selected st))%nat then st
  else
    let st :=
      if decide (id d ∈ pinned st)
      then set_pinned (pinned st ∖ {[id d]}) st
      else set_pinned ({[id d]} ∪ pinned st) st in
    redraw st.

(* [v] is [parseFloat(fcInput.value)], resp. [parseFloat(fdrInput.value)]. *)
Definition updateFc (v : A) (st : State) : State :=
  redraw (set_fcThreshold v st).

Definition updateFdr (v : A) (st : State) : State :=
  redraw (set_fdrThreshold v st).

(* [value] is [searchId?.value], [None] when it is [undefined]; the empty
   string is falsy as well, and [||] puts the empty string for both. *)
Definition doSearch (value : option jsstring) (st : State) : State :=
  let q := toLowerCase (trim (default [] value)) in
  if decide (q = []) then
    redraw (set_searchHighlightId None st)
  else
    match List.find (λ d, includes (toLowerCase (id d)) q) (data st) with
    | Some found =>
        let st := set_searchHighlightId (Some (id found)) st in
        let pad := num_lit (12 # 10) in
        let st :=
          set_zoomDomain
            (Some {| zoom_x := (nsub (log2FC found) pad, nadd (log2FC found) pad);
                     zoom_y := (nmax (num_of_Z 0) (nsub (negLog10P found) pad),
                                nadd (negLog10P found) pad) |}) st in
        redraw st
    | None =>
        redraw (set_zoomDomain None (set_searchHighlightId None st))
    end.

End core.

Arguments datum A : clear implicits.
Arguments zoom A : clear implicits.
Arguments State A : clear implicits.

(* The initial value of [state]. *)
Definition initial_state `{Number A} : State A :=
  {| data := []; fcThreshold := num_of_Z 1; fdrThreshold := num_lit (5 # 100);
     topN := 10; showLabels := true; pinned := ∅; selected := ∅;
     searchHighlightId := None; pvalAtFdr := None; zoomDomain := None |}.

(** ** The other handlers *)

(** [Math.abs], which [Number] does not have. *)
Class MathAbs (A : Type) := Math_abs : A → A.

#[global] Instance exact_abs : MathAbs Qc := Qcabs.Qcabs.
#[global] Instance binary64_abs : MathAbs float := PrimFloat.abs.

(* [l.slice(0, end)]: a negative [end] counts from the end of the array. *)
Definition slice_to {B : Type} (l : list B) (end_ : Z) : list B :=
  take (Z.to_nat (if end_ <? 0 then Z.max (Z.of_nat (length l) + end_) 0 else end_)) l.

Section handlers.
Context `{Number A} `{!MathAbs A}.

Definition set_selected v (st : State A) : State A :=
  {| data := data st; fcThreshold := fcThreshold st;
     fdrThreshold := fdrThreshold st; topN := topN st;
     showLabels := showLabels st; pinned := pinned st;
     selected := v; searchHighlightId := searchHighlightId st;
     pvalAtFdr := pvalAtFdr st; zoomDomain := zoomDomain st |}.
Definition set_topN v (st : State A) : State A :=
  {| data := data st; fcThreshold := fcThreshold st;
     fdrThreshold := fdrThreshold st; topN := v;
     showLabels := showLabels st; pinned := pinned st;
     selected := selected st; searchHighlightId := searchHighlightId st;
     pvalAtFdr := pvalAtFdr st; zoomDomain := zoomDomain st |}.
Definition set_showLabels v (st : State A) : State A :=
  {| data := data st; fcThreshold := fcThreshold st;
     fdrThreshold := fdrThreshold st; topN := topN st;
     showLabels := v; pinned := pinned st;
     selected := selected st; searchHighlightId := searchHighlightId st;
     pvalAtFdr := pvalAtFdr st; zoomDomain := zoomDomain st |}.

(* The click handler of the overlay; [defaultPrevented] is
   [e.defaultPrevented]. *)
Definition overlay_click (defaultPrevented : bool) (st : State A) : State A :=
  if defaultPrevented then st
  else redraw (set_selected ∅ (set_pinned ∅ st)).

(* The click handler of the reset-zoom button. *)
Definition reset_zoom (st : State A) : State A :=
  redraw (set_searchHighlightId None (set_zoomDomain None st)).

(* The change handler of the top-N input; [parsed] is
   [parseInt(topNInput.value, 10)], [None] when it is [NaN].  [NaN] and [0]
   are falsy, so [|| 10] replaces both. *)
Definition topN_change (parsed : option Z) (st : State A) : State A :=
  let v := match parsed with
           | Some n => if decide (n = 0) then 10 else n
           | None => 10
           end in
  redraw (set_topN (Z.max 0 (Z.min 50 v)) st).

(* The change handler of the show-labels box. *)
Definition showLabels_change (checked : bool) (st : State A) : State A :=
  redraw (set_showLabels checked st).

(** *** Box selection

    [boxStart] is a variable of the module, [None] when it is [null];
    [pt] is [d3.pointer(e, gPlot.node())] and [button] is [e.button].  The
    scales of the plot are d3 objects; [endBox] uses their [invert]. *)

Definition startBox (button : Z) (pt : A * A) (boxStart : option (A * A))
    : option (A * A) :=
  if decide (button ≠ 0) then boxStart else Some pt.

(* The test of [forEach] in [endBox]. *)
Definition in_box (x0 x1 y0 y1 : A) (d : datum A) : bool :=
  nge (log2FC d) (nmin x0 x1) && nle (log2FC d) (nmax x0 x1)
  && nge (negLog10P d) (nmin y0 y1) && nle (negLog10P d) (nmax y0 y1).

Definition endBox (xScale_invert yScale_invert : A → A)
    (button : Z) (pt : A * A) (boxStart : option (A * A)) (st : State A)
    : option (A * A) * State A :=
  match boxStart with
  | None => (boxStart, st)
  | Some start =>
      if decide (button ≠ 0) then (boxStart, st)
      else
        let x := nmin start.1 pt.1 in
        let y := nmin start.2 pt.2 in
        let w := Math_abs (nsub pt.1 start.1) in
        let h := Math_abs (nsub pt.2 start.2) in
        if ngt w (num_of_Z 4) && ngt h (num_of_Z 4) then
          let x0 := xScale_invert x in
          let x1 := xScale_invert (nadd x w) in
          let y0 := yScale_invert y in
          let y1 := yScale_invert (nadd y h) in
          let sel := foldl (λ sel d, if in_box x0 x1 y0 y1 d
                                     then {[id d]} ∪ sel else sel)
                           ∅ (data st) in
          (None, redraw (set_selected sel st))
        else (None, st)
  end.

(** *** Labels

    The last part of [redraw], after the categories are written: the
    points that get a label.  [None]: [redraw] returned at once, the
    dataset being empty. *)

Definition topSignificant (st : State A) : list (datum A) :=
  slice_to
    (sort (λ a b, nsub (pval a) (pval b))
          (filter (λ d, _category d ≠ Some not_sig) (data st)))
    (topN st).

Definition toLabel (st : State A) : gset jsstring :=
  foldl (λ s i, {[i]} ∪ s)
        (list_to_set (if showLabels st then id <$> topSignificant st else []))
        (elements (pinned st)).

Definition redraw_labels (st : State A) : option (list (datum A)) :=
  if decide (length (data st) = 0%nat) then None
  else
    let st := redraw st in
    Some (filter (λ d, id d ∈ toLabel st) (data st)).

(** *** Resizable panel *)

(* The width [move] gives the panel during a drag of the handle. *)
Definition resize_move (startX startWidth clientX : A) : A :=
  let dx := nsub clientX startX in
  let w := nadd startWidth dx in
  nmax (num_of_Z 200) (nmin (num_of_Z 480) w).

End handlers.

(** ** Synthetic data *)

Definition N_POINTS : nat := 1200.

Definition GENE_SYMBOLS : list jsstring :=
  js <$> [
   "TP53"; "BRCA1"; "EGFR"; "MYC"; "AKT1"; "PTEN"; "KRAS"; "ERBB2";
   "VEGFA"; "IL6"; "TNF"; "MAPK1"; "JUN"; "FOS"; "STAT3"; "NFKB1";
   "CDKN1A"; "BCL2"; "CASP3"; "ESR1"; "AR"; "INS"; "INSR"; "IGF1";
   "CTNNB1"; "APC"; "SMAD4"; "TGFB1"; "CDK1"; "CCND1"; "RB1"; "E2F1";
   "MDM2"; "CDKN2A"; "GAPDH"; "ACTB"; "HSP90AA1"; "HSPA8"; "TUBB"; "LMNA";
   "SOD1"; "CAT"; "GPX1"; "NFE2L2"; "HIF1A"; "VHL"; "MTOR"; "PIK3CA";
   "GSK3B"; "NOTCH1"; "WNT1"; "DVL1"; "AXIN1"; "LEF1"; "TCF7L2"; "MYCN";
   "FLT1"; "KDR"; "PDGFRA"; "MET"; "RET"; "BRAF"; "RAF1"; "MAP2K1";
   "MAPK3"; "ELK1"; "CREB1"; "ATF2"; "JAK2"; "SOCS1"; "IL10"; "IFNG";
   "CD4"; "CD8A"; "CD19"; "CD34"; "KIT"; "FLT3"; "NPM1"; "CEBPA";
   "RUNX1"; "GATA1"; "TPO"; "EPO"; "VEGFB"; "FGF2"; "PDGFA"; "EGF";
   "TGFB2"; "BMP4"; "WNT3A"; "SHH"; "DLL1"; "JAG1"; "HES1"; "HEY1";
   "SNAI1"; "TWIST1"; "ZEB1"; "CDH1"; "VIM"; "FN1"; "COL1A1"; "MMP2";
   "MMP9"; "TIMP1"; "SERPINE1"; "PLAU"; "CXCL12"; "CCL2"; "IL1B"; "IL8";
   "COX2"; "PTGS2"; "NOS2"; "ARG1"; "IDO1"; "CD274"; "PDCD1"; "CTLA4";
   "CD80"; "CD86"; "IL2"; "IL12A"; "TGFB3"; "BMP2"; "WNT5A"; "FZD1";
   "LRP5"; "DKK1"].

(** [Math.exp], [Math.log10] and [Math.SQRT2], which the engine
    supplies. *)
Class MathLib (A : Type) := {
  Math_exp : A → A;
  Math_log10 : A → A;
  Math_SQRT2 : A;
}.

Section generate.
Context `{Number A} `{!MathAbs A} `{!MathLib A}.

Definition normalCdf (x : A) : A :=
  let a1 := num_lit (254829592 # 1000000000) in
  let a2 := num_lit (-284496736 # 1000000000) in
  let a3 := num_lit (1421413741 # 1000000000) in
  let a4 := num_lit (-1453152027 # 1000000000) in
  let a5 := num_lit (1061405429 # 1000000000) in
  let p := num_lit (3275911 # 10000000) in
  let sign := if nlt x (num_of_Z 0) then num_of_Z (-1) else num_of_Z 1 in
  let x := ndiv (Math_abs x) Math_SQRT2 in
  let t := ndiv (num_of_Z 1) (nadd (num_of_Z 1) (nmul p x)) in
  let y :=
    nsub (num_of_Z 1)
      (nmul
         (nmul
            (nadd (nmul (nadd (nmul (nadd (nmul (nadd (nmul a5 t) a4) t) a3) t) a2) t) a1)
            t)
         (Math_exp (nmul (nneg x) x))) in
  nmul (num_lit (1 # 2)) (nadd (num_of_Z 1) (nmul sign y)).

(* The literal [1e-20]: [1e10 * 1e10] is exactly [1e20] and the quotient
   is its correctly rounded inverse. *)
Definition num_1e_20 : A :=
  ndiv (num_of_Z 1) (nmul (num_of_Z (10 ^ 10)) (num_of_Z (10 ^ 10))).

(* A point as the loop of [generateData] pushes it. *)
Record pushed := {
  pushed_id : jsstring;
  pushed_geneSymbol : jsstring;
  pushed_log2FC : A;
  pushed_pval : A;
}.

(* [for (let i = 0; i < N_POINTS; i++) { ... }]; [fuel] is [N_POINTS - i]
   and [s] is the variable of the generator [rng].  The index
   [i % GENE_SYMBOLS.length] is always inside the table, and [i + 1], a
   positive integer, is converted to its decimal digits. *)
Fixpoint generate_loop (fuel i : nat) (s : Z) (data : list pushed) : list pushed :=
  match fuel with
  | O => data
  | S fuel' =>
      let geneSymbol :=
        default (js "undefined") (GENE_SYMBOLS !! (i `mod` length GENE_SYMBOLS)%nat) in
      let id := geneSymbol ++ js "_" ++ js (pretty (i + 1)%nat) in
      let '(r1, s) := rng_call s in
      let log2FC := nmul (nsub r1 (num_lit (1 # 2))) (num_of_Z 6) in
      let '(r2, s) := rng_call s in
      let z := nadd (Math_abs log2FC) (nmul r2 (num_of_Z 2)) in
      let pval :=
        nmax num_1e_20
          (nmul (num_of_Z 2) (nsub (num_of_Z 1) (normalCdf (Math_abs z)))) in
      generate_loop fuel' (S i) s
        (data ++ [{| pushed_id := id; pushed_geneSymbol := geneSymbol;
                     pushed_log2FC := log2FC; pushed_pval := pval |}])
  end.

(* [data.forEach((d, i) => { d.fdr = fdr[i]; d.negLog10P = ... })].  A
   point whose [fdr[i]] is [undefined] has no place in [datum]; the
   result is [None] then, as it is when the engine throws. *)
Definition attach (fdr : list (option A)) (i : nat) (d : pushed) : option (datum A) :=
  q ← mjoin (fdr !! i);
  Some {| id := pushed_id d; geneSymbol := pushed_geneSymbol d;
          log2FC := pushed_log2FC d; pval := pushed_pval d; fdr := q;
          negLog10P := nneg (Math_log10 (pushed_pval d)); _category := None |}.

(* [seed] is the argument, [Date.now()] by default. *)
Definition generateData (seed : Z) : option (list (datum A)) :=
  let data := generate_loop N_POINTS 0 seed [] in
  let pvals := pushed_pval <$> data in
  fdr ← benjaminiHochberg pvals;
  mapM (λ '(i, d), attach fdr i d) (imap pair data).

(* The click handler of the regenerate button; [now] is [Date.now()]. *)
Definition regenerate (now : Z) (st : State A) : option (State A) :=
  data ← generateData now;
  Some (redraw (set_zoomDomain None (set_searchHighlightId None
          (set_selected ∅ (set_pinned ∅ (set_data data st)))))).

End generate.

Arguments pushed A : clear implicits.

(** ** Notions used in the statements *)

(* A point with the given coordinates; the other fields play no role. *)
Definition point `{Number A} (name : jsstring) (fc p q : A) : datum A :=
  {| id := name; geneSymbol := name; log2FC := fc; pval := p; fdr := q;
     negLog10P := num_of_Z 0; _category := None |}.

(** The adjusted values follow the order of the p-values: a point with a
    strictly smaller p-value has an adjusted value that is not larger. *)
Definition bh_monotone `{Number A} (pvals : list A) (out : list (option A)) : Prop :=
  ∀ i j pi pj qi qj,
    pvals !! i = Some pi → pvals !! j = Some pj →
    out !! i = Some (Some qi) → out !! j = Some (Some qj) →
    nlt pi pj = true → nle qi qj = true.

(* [indexed] in [benjaminiHochberg]. *)
Definition bh_indexed `{Number A} (pvals : list A) : list (indexed_p A) :=
  sort (λ a b, nsub (ip_p a) (ip_p b))
       (imap (λ i p, {| ip_p := p; ip_i := i |}) pvals).

(* The value stored for the entry at the 0-based index [k] of [indexed]. *)
Definition bh_value `{Number A} (n k : nat) (pk : A) : A :=
  nmin (num_of_Z 1)
       (ndiv (nmul pk (num_of_Z (Z.of_nat n))) (num_of_Z (Z.of_nat k + 1))).

(* With the comparator [cmp], [x] may stay before [y]. *)
Definition cmp_le `{Number A} {B : Type} (cmp : B → B → A) (x y : B) : Prop :=
  ngt (cmp x y) (num_of_Z 0) = false.

(* The p-values in the order of [sorted] in [pvalueAtFdrThreshold]. *)
Definition sorted_pvals `{Number A} (data : list (datum A)) : list A :=
  pval <$> sort (λ a b, nsub (pval a) (pval b)) data.

(* The test of the loop at index [k]: the raw ratio exceeds the threshold. *)
Definition exceeds `{Number A} (m : nat) (fdrT : A) (k : nat) (pk : A) : bool :=
  ngt (ndiv (nmul pk (num_of_Z (Z.of_nat m))) (num_of_Z (Z.of_nat k + 1))) fdrT.

(* On the p-values of [data] the numbers behave as an order: any two of
   them can be compared by [<=], the comparator of the sort, which is the
   sign of the difference, agrees with [<=], and [<=] is transitive.
   Exact arithmetic is so, and binary64 is on p-values that are numbers:
   neither [NaN] nor infinite. *)
Definition pvals_ordered `{Number A} (data : list (datum A)) : Prop :=
  let ps := pval <$> data in
  Forall (λ x, Forall (λ y,
    (nle x y = true ∨ nle y x = true)
    ∧ (ngt (nsub x y) (num_of_Z 0) = false ↔ nle x y = true)
    ∧ Forall (λ z, nle x y = true → nle y z = true → nle x z = true) ps) ps) ps.

(* Five points in binary64, listed out of order. *)
Definition five_points : list (datum float) :=
  [point (js "TP53_1") 2%float 0.9%float 0.9%float;
   point (js "BRCA1_2") (-2)%float 0.002%float 0.002%float;
   point (js "EGFR_3") 0%float 0.95%float 0.95%float;
   point (js "MYC_4") 1.5%float 0.03%float 0.03%float;
   point (js "AKT1_5") (-1.5)%float 0.001%float 0.001%float].

(* The raw ratio at the 0-based index [k], in exact arithmetic:
   [p * m / (k + 1)]. *)
Definition raw_ratio (m k : nat) (pk : Qc) : Qc :=
  (pk * Qc_of_Z (Z.of_nat m) / Qc_of_Z (Z.of_nat k + 1))%Qc.

(* The query as [doSearch] compares it. *)
Definition search_query {SL : StringLib} (value : option jsstring) : jsstring :=
  toLowerCase (trim (default [] value)).

Definition no_match `{Number A} {SL : StringLib} (q : jsstring) (st : State A) : Prop :=
  ∀ d, d ∈ data st → includes (toLowerCase (id d)) q = false.

(* The number of calls of one generator in a schedule. *)
Fixpoint calls (b : bool) (sched : list bool) : nat :=
  match sched with
  | [] => 0
  | b' :: sched' => (if decide (b' = b) then 1 else 0) + calls b sched'
  end.

(* A state with two points, zoomed in after an earlier search. *)
Definition zoomed_state : State Qc :=
  {| data := [point (js "TP53_1") (num_of_Z 2) (num_lit (1 # 100)) (num_lit (2 # 100));
              point (js "BRCA1_2") (num_of_Z (-1)) (num_lit (4 # 10)) (num_lit (4 # 10))];
     fcThreshold := num_of_Z 1; fdrThreshold := num_lit (5 # 100);
     topN := 10; showLabels := true; pinned := ∅; selected := ∅;
     searchHighlightId := Some (js "TP53_1"); pvalAtFdr := None;
     zoomDomain := Some {| zoom_x := (num_lit (8 # 10), num_lit (32 # 10));
                           zoom_y := (num_lit (8 # 10), num_lit (32 # 10)) |} |}.

(* Three points, listed out of order. *)
Definition three_points : list (datum Qc) :=
  [point (js "TP53_1") (num_of_Z 2) (num_lit (4 # 100)) (num_lit (6 # 100));
   point (js "BRCA1_2") (num_of_Z (-2)) (num_lit (1 # 100)) (num_lit (3 # 100));
   point (js "EGFR_3") (num_of_Z 0) (num_lit (1 # 2)) (num_lit (1 # 2))].

(* Every point carries the category its coordinates have under the
   thresholds of the state. *)
Definition categories_fresh `{Number A} (st : State A) : Prop :=
  ∀ d, d ∈ data st →
    _category d = Some (getCategory d (fcThreshold st) (fdrThreshold st)).

(* Two points that differ in [_category] at most. *)
Definition same_point `{Number A} (d1 d2 : datum A) : Prop :=
  id d1 = id d2 ∧ geneSymbol d1 = geneSymbol d2 ∧ log2FC d1 = log2FC d2
  ∧ pval d1 = pval d2 ∧ fdr d1 = fdr d2 ∧ negLog10P d1 = negLog10P d2.

(* The events of the page that reach the state, each with what its
   handler reads from the event and from the page. *)
Inductive event (A : Type) :=
  | PointClick (d : datum A)
  | OverlayClick (defaultPrevented : bool)
  | UpdateFc (v : A)
  | UpdateFdr (v : A)
  | TopNChange (parsed : option Z)
  | ShowLabelsChange (checked : bool)
  | Search (value : option jsstring)
  | ResetZoom
  | EndBox (xScale_invert yScale_invert : A → A) (button : Z) (pt : A * A)
      (boxStart : option (A * A)).

Arguments PointClick {A} d.
Arguments OverlayClick {A} defaultPrevented.
Arguments UpdateFc {A} v.
Arguments UpdateFdr {A} v.
Arguments TopNChange {A} parsed.
Arguments ShowLabelsChange {A} checked.
Arguments Search {A} value.
Arguments ResetZoom {A}.
Arguments EndBox {A} xScale_invert yScale_invert button pt boxStart.

Definition handle `{Number A} `{!MathAbs A} {SL : StringLib} (e : event A)
    (st : State A) : State A :=
  match e with
  | PointClick d => point_click d st
  | OverlayClick p => overlay_click p st
  | UpdateFc v => updateFc v st
  | UpdateFdr v => updateFdr v st
  | TopNChange parsed => topN_change parsed st
  | ShowLabelsChange checked => showLabels_change checked st
  | Search value => doSearch value st
  | ResetZoom => reset_zoom st
  | EndBox xi yi button pt boxStart => (endBox xi yi button pt boxStart st).2
  end.

(* The drag from [boxStart] to [pt] ends a box selection: a drag is in
   progress, the left button is released, and the box is more than four
   pixels wide and high. *)
Definition box_committed `{Number A} `{!MathAbs A} (button : Z) (pt : A * A)
    (boxStart : option (A * A)) : bool :=
  match boxStart with
  | None => false
  | Some start =>
      bool_decide (button = 0)
      && ngt (Math_abs (nsub pt.1 start.1)) (num_of_Z 4)
      && ngt (Math_abs (nsub pt.2 start.2)) (num_of_Z 4)
  end.

(* The corners [x0], [x1], [y0], [y1] of the box in data coordinates. *)
Definition box_corners `{Number A} `{!MathAbs A} (xScale_invert yScale_invert : A → A)
    (start pt : A * A) : A * A * A * A :=
  let x := nmin start.1 pt.1 in
  let y := nmin start.2 pt.2 in
  let w := Math_abs (nsub pt.1 start.1) in
  let h := Math_abs (nsub pt.2 start.2) in
  (xScale_invert x, xScale_invert (nadd x w),
   yScale_invert y, yScale_invert (nadd y h)).

(* The ids of a generated dataset: [<gene symbol>_<i + 1>] for the
   indices [i] below [N_POINTS]. *)
Definition generated_ids : list jsstring :=
  (λ i, default (js "undefined") (GENE_SYMBOLS !! (i `mod` length GENE_SYMBOLS)%nat)
        ++ js "_" ++ js (pretty (i + 1)%nat)) <$> seq 0 N_POINTS.

(* The ranges of a point pushed by the loop of [generateData], in exact
   arithmetic. *)
Definition pushed_in_range (d : pushed Qc) : Prop :=
  (num_1e_20 ≤ pushed_pval d)%Qc
  ∧ (Q2Qc (-3) ≤ pushed_log2FC d ≤ Q2Qc 3)%Qc.

(* The point with the opposite effect size, and the opposite category. *)
Definition mirror `{Number A} (d : datum A) : datum A :=
  {| id := id d; geneSymbol := geneSymbol d; log2FC := nneg (log2FC d);
     pval := pval d; fdr := fdr d; negLog10P := negLog10P d;
     _category := _category d |}.

Definition opposite (c : category) : category :=
  match c with
  | sig_up => sig_down
  | sig_down => sig_up
  | not_sig => not_sig
  end.

(** * Properties *)

(** ** Benjamini–Hochberg *)

Ltac exact_eq := apply (bool_decide_unpack _); vm_compute; exact I.

(** C1: on the p-values [0.25, 0.5, 0.625] the engine returns
    [0.75, 0.75, 0.625], in exact and in binary64 arithmetic alike: the
    largest p-value gets the smallest adjusted value, so the output is not
    non-decreasing in p-value order.  No backward minimum is taken. *)
Theorem benjaminiHochberg_not_monotone :
  let pvals := [1 # 4; 1 # 2; 5 # 8]%Q in
  let out := [3 # 4; 3 # 4; 5 # 8]%Q in
  benjaminiHochberg (A:=Qc) (num_lit <$> pvals) = Some (Some ∘ num_lit <$> out)
  ∧ ¬ bh_monotone (A:=Qc) (num_lit <$> pvals) (Some ∘ num_lit <$> out)
  ∧ benjaminiHochberg [0.25; 0.5; 0.625]%float
    = Some [Some 0.75; Some 0.75; Some 0.625]%float
  ∧ ¬ bh_monotone [0.25; 0.5; 0.625]%float
        [Some 0.75; Some 0.75; Some 0.625]%float.
Proof.
  cbv zeta. split_and!.
  - exact_eq.
  - intros Hm. specialize (Hm 1%nat 2%nat _ _ _ _ eq_refl eq_refl eq_refl eq_refl).
    vm_compute in Hm. specialize (Hm eq_refl). discriminate.
  - vm_compute. reflexivity.
  - intros Hm. specialize (Hm 1%nat 2%nat _ _ _ _ eq_refl eq_refl eq_refl eq_refl).
    vm_compute in Hm. specialize (Hm eq_refl). discriminate.
Qed.

(** C2: on the two equal p-values [0.5, 0.5] the engine returns [1, 0.5],
    in exact and in binary64 arithmetic alike; the first adjusted value is
    not [min(1, 0.5)], which is [0.5]. *)
Theorem benjaminiHochberg_equal_pvalues :
  benjaminiHochberg (A:=Qc) (num_lit <$> [1 # 2; 1 # 2]%Q)
    = Some (Some ∘ num_lit <$> [1; 1 # 2]%Q)
  ∧ nmin (A:=Qc) (num_of_Z 1) (num_lit (1 # 2)) = num_lit (1 # 2)
  ∧ num_lit (A:=Qc) 1 ≠ num_lit (1 # 2)
  ∧ benjaminiHochberg [0.5; 0.5]%float = Some [Some 1; Some 0.5]%float
  ∧ nmin 1%float 0.5%float = 0.5%float
  ∧ PrimFloat.eqb 1 0.5 = false.
Proof.
  split_and!.
  - exact_eq.
  - exact_eq.
  - intros Heq. apply (f_equal this) in Heq. vm_compute in Heq. discriminate.
  - vm_compute. reflexivity.
  - vm_compute. reflexivity.
  - vm_compute. reflexivity.
Qed.


(** Without rounding the five values are [0.05]: every ratio
    [0.01 k * 5 / k] is. *)
Lemma benjaminiHochberg_example_exact :
  benjaminiHochberg (A:=Qc)
    (num_lit <$> [1 # 100; 2 # 100; 3 # 100; 4 # 100; 5 # 100]%Q)
  = Some (Some ∘ num_lit <$> [5 # 100; 5 # 100; 5 # 100; 5 # 100; 5 # 100]%Q).
Proof. exact_eq. Qed.


(** ** Threshold setters *)

Section setters.
Context `{Number A}.

Lemma redraw_fcThreshold (st : State A) : fcThreshold (redraw st) = fcThreshold st.
Proof. unfold redraw. by case_decide. Qed.

Lemma redraw_fdrThreshold (st : State A) : fdrThreshold (redraw st) = fdrThreshold st.
Proof. unfold redraw. by case_decide. Qed.

Lemma redraw_pinned (st : State A) : pinned (redraw st) = pinned st.
Proof. unfold redraw. by case_decide. Qed.

Lemma redraw_selected (st : State A) : selected (redraw st) = selected st.
Proof. unfold redraw. by case_decide. Qed.

Lemma redraw_searchHighlightId (st : State A) :
  searchHighlightId (redraw st) = searchHighlightId st.
Proof. unfold redraw. by case_decide. Qed.

Lemma redraw_zoomDomain (st : State A) : zoomDomain (redraw st) = zoomDomain st.
Proof. unfold redraw. by case_decide. Qed.

(** C3, as the code has it: both setters store the parsed value as it is,
    whatever it is; nothing is clamped. *)
Theorem threshold_setters_store_value (v : A) (st : State A) :
  fcThreshold (updateFc v st) = v ∧ fdrThreshold (updateFdr v st) = v.
Proof.
  unfold updateFc, updateFdr.
  by rewrite redraw_fcThreshold, redraw_fdrThreshold.
Qed.

(** ** Classification *)

(** C4, as the code has it: [sig_down] is returned exactly when the point
    passes the FDR threshold, lies at or below [-fcThreshold] and does not
    lie at or above [fcThreshold]; the test for [sig_up] comes first. *)
Theorem getCategory_sig_down (d : datum A) (fcT fdrT : A) :
  getCategory d fcT fdrT = sig_down
  ↔ nle (fdr d) fdrT = true
    ∧ nle (log2FC d) (nneg fcT) = true
    ∧ nge (log2FC d) fcT = false.
Proof.
  unfold getCategory.
  destruct (nle (fdr d) fdrT), (nge (log2FC d) fcT),
    (nle (log2FC d) (nneg fcT)); simpl; intuition congruence.
Qed.

Lemma getCategory_sig_up (d : datum A) (fcT fdrT : A) :
  getCategory d fcT fdrT = sig_up
  ↔ nle (fdr d) fdrT = true ∧ nge (log2FC d) fcT = true.
Proof.
  unfold getCategory.
  destruct (nle (fdr d) fdrT), (nge (log2FC d) fcT),
    (nle (log2FC d) (nneg fcT)); simpl; intuition congruence.
Qed.

(** ** Pinning *)

(** C8: while a box selection exists, a click on a point changes nothing
    in the state; the pinned set in particular stays as it was. *)
Theorem point_click_selected (d : datum A) (st : State A) :
  selected st ≠ ∅ →
  point_click d st = st ∧ pinned (point_click d st) = pinned st.
Proof.
  intros Hsel. unfold point_click.
  case_decide as Hsize; [done|].
  exfalso. apply Hsel, leibniz_equiv, size_empty_iff. lia.
Qed.

Lemma point_click_pin (d : datum A) (st : State A) :
  selected st = ∅ →
  pinned (point_click d st)
  = if decide (id d ∈ pinned st) then pinned st ∖ {[id d]}
    else {[id d]} ∪ pinned st.
Proof.
  intros Hsel. unfold point_click. rewrite Hsel, size_empty.
  case_decide; [lia|]. rewrite redraw_pinned. by case_decide.
Qed.

End setters.

(** C3, as stated, fails: a negative value is stored as the FC threshold
    and a value above one as the FDR threshold. *)
Lemma threshold_setters_no_clamp :
  ¬ (∀ (v : Qc) (st : State Qc),
       (0 ≤ fcThreshold (updateFc v st))%Qc
       ∧ (0 ≤ fdrThreshold (updateFdr v st) ≤ 1)%Qc).
Proof.
  intros Hclamp.
  destruct (Hclamp (num_of_Z (-1)) initial_state) as [Hfc _].
  destruct (Hclamp (num_of_Z 2) initial_state) as [_ [_ Hfdr]].
  vm_compute in Hfc. vm_compute in Hfdr. by apply Hfc.
Qed.

(** C4, as stated, fails at [fcThreshold = 0], [effectSize = 0]: the point
    satisfies the two conditions of the claim and is classified [sig_up]. *)
Lemma getCategory_zero_threshold :
  let d := point (A:=Qc) (js "TP53_1") (num_of_Z 0) (num_lit (1 # 100)) (num_lit (1 # 100)) in
  let fcT := num_of_Z 0 in
  let fdrT := num_lit (5 # 100) in
  ¬ (getCategory d fcT fdrT = sig_down
     ↔ nle (fdr d) fdrT = true ∧ nle (log2FC d) (nneg fcT) = true).
Proof.
  cbv zeta. intros [_ Hdown].
  assert (Hup : getCategory (point (A:=Qc) (js "TP53_1") (num_of_Z 0)
    (num_lit (1 # 100)) (num_lit (1 # 100))) (num_of_Z 0) (num_lit (5 # 100)) = sig_up)
    by (vm_compute; reflexivity).
  rewrite Hup in Hdown. discriminate Hdown. split; vm_compute; reflexivity.
Qed.

(** The same point in binary64, where [-0 <= 0] holds as well. *)
Lemma getCategory_zero_threshold_binary64 :
  let d := point (A:=float) (js "TP53_1") 0%float 0.01%float 0.01%float in
  getCategory d 0%float 0.05%float = sig_up
  ∧ nle (fdr d) 0.05%float = true
  ∧ nle (log2FC d) (nneg 0%float) = true.
Proof. vm_compute. done. Qed.

(** A state with a box selection, pinned by a click. *)
Lemma point_click_selected_witness :
  let st : State Qc :=
    {| data := []; fcThreshold := num_of_Z 1; fdrThreshold := num_lit (5 # 100);
       topN := 10; showLabels := true; pinned := {[js "EGFR_3"]};
       selected := {[js "TP53_1"; js "BRCA1_2"; js "MYC_4"]};
       searchHighlightId := None; pvalAtFdr := None; zoomDomain := None |} in
  let d := point (js "KRAS_7") (num_of_Z 2) (num_lit (1 # 100)) (num_lit (1 # 100)) in
  point_click d st = st ∧ pinned (point_click d st) = pinned st.
Proof.
  cbv zeta. apply point_click_selected. simpl.
  intros Hempty. apply (f_equal size) in Hempty. vm_compute in Hempty. discriminate.
Defined.

(** ** Search *)

Lemma includes_empty (s : jsstring) : includes s [] = true.
Proof. by destruct s. Qed.

Lemma toLowerCase_nil `{StringLib} : toLowerCase [] = [].
Proof. by rewrite toLowerCase_ascii. Qed.

Lemma find_None_iff {B : Type} (f : B → bool) (l : list B) :
  List.find f l = None ↔ ∀ x, x ∈ l → f x = false.
Proof.
  induction l as [|y l IH]; simpl.
  - split; [|done]. intros _ x Hx. by apply not_elem_of_nil in Hx.
  - destruct (f y) eqn:Hy.
    + split; [done|]. intros Hall. rewrite Hall in Hy; [done|]. by left.
    + rewrite IH. split.
      * intros Hall x [->|Hx]%elem_of_cons; auto.
      * intros Hall x Hx. apply Hall. by right.
Qed.

Section search.
Context `{Number A} {SL : StringLib}.

(** C10: a query that is empty once trimmed (of all the white space
    [trim] removes) clears the search highlight and leaves the zoom window
    as it was, although the empty query is included in every id; a
    non-empty query that matches no id clears both; and a zoom window is
    cleared by a search in the latter case only. *)
Theorem doSearch_blank_query (value : option jsstring) (st : State A) :
  let q := search_query value in
  (trim (default [] value) = [] →
     searchHighlightId (doSearch value st) = None
     ∧ zoomDomain (doSearch value st) = zoomDomain st
     ∧ ∀ s, includes s q = true)
  ∧ (q ≠ [] → no_match q st →
     searchHighlightId (doSearch value st) = None
     ∧ zoomDomain (doSearch value st) = None)
  ∧ (zoomDomain (doSearch value st) = None → zoomDomain st ≠ None →
     q ≠ [] ∧ no_match q st).
Proof.
  cbv zeta. unfold search_query, no_match, doSearch.
  set (q := toLowerCase (trim (default [] value))).
  split_and!.
  - intros Hblank. assert (q = []) as ->
      by (unfold q; rewrite Hblank; apply toLowerCase_nil).
    rewrite decide_True by done.
    rewrite redraw_searchHighlightId, redraw_zoomDomain. simpl.
    split_and!; [done..|]. apply includes_empty.
  - intros Hq Hnone. rewrite decide_False by done.
    apply find_None_iff in Hnone. rewrite Hnone.
    by rewrite redraw_searchHighlightId, redraw_zoomDomain.
  - case_decide as Hq.
    + rewrite redraw_zoomDomain. simpl. by intros ->.
    + destruct (List.find _ (data st)) as [found|] eqn:Hfind.
      * rewrite redraw_zoomDomain. done.
      * intros _ _. split; [done|]. by apply find_None_iff.
Qed.

(** A query that matches: the first matching point in dataset order is
    highlighted and the zoom window is set around it. *)
Lemma doSearch_found (value : option jsstring) (st : State A) (found : datum A) :
  search_query value ≠ [] →
  List.find (λ d, includes (toLowerCase (id d)) (search_query value)) (data st)
    = Some found →
  searchHighlightId (doSearch value st) = Some (id found)
  ∧ is_Some (zoomDomain (doSearch value st)).
Proof.
  intros Hq Hfind. unfold doSearch. fold (search_query value).
  rewrite decide_False by done. rewrite Hfind.
  rewrite redraw_searchHighlightId, redraw_zoomDomain. simpl. eauto.
Qed.

End search.

(** Three blank queries and a query without a match, on a zoomed state:
    spaces, a no-break space between a tab and a line feed, and an
    ideographic space. *)
Lemma doSearch_blank_query_witness :
  let doSearch := doSearch (SL:=basic_latin) in
  let search_query := search_query (SL:=basic_latin) in
  (searchHighlightId (doSearch (Some (js "   ")) zoomed_state) = None
   ∧ zoomDomain (doSearch (Some (js "   ")) zoomed_state) = zoomDomain zoomed_state
   ∧ ∀ s, includes s (search_query (Some (js "   "))) = true)
  ∧ (searchHighlightId (doSearch (Some [9; 0xA0; 10]%N) zoomed_state) = None
     ∧ zoomDomain (doSearch (Some [9; 0xA0; 10]%N) zoomed_state)
       = zoomDomain zoomed_state
     ∧ ∀ s, includes s (search_query (Some [9; 0xA0; 10]%N)) = true)
  ∧ (searchHighlightId (doSearch (Some [0x3000]%N) zoomed_state) = None
     ∧ zoomDomain (doSearch (Some [0x3000]%N) zoomed_state)
       = zoomDomain zoomed_state
     ∧ ∀ s, includes s (search_query (Some [0x3000]%N)) = true)
  ∧ (searchHighlightId (doSearch (Some (js "kras")) zoomed_state) = None
     ∧ zoomDomain (doSearch (Some (js "kras")) zoomed_state) = None).
Proof.
  cbv zeta. split; [|split; [|split]].
  - apply (doSearch_blank_query (SL:=basic_latin) (Some (js "   ")) zoomed_state).
    reflexivity.
  - apply (doSearch_blank_query (SL:=basic_latin) (Some [9; 0xA0; 10]%N) zoomed_state).
    reflexivity.
  - apply (doSearch_blank_query (SL:=basic_latin) (Some [0x3000]%N) zoomed_state).
    reflexivity.
  - apply (doSearch_blank_query (SL:=basic_latin) (Some (js "kras")) zoomed_state).
    + vm_compute. discriminate.
    + intros d Hd. simpl in Hd.
      apply elem_of_cons in Hd as [->|Hd]; [reflexivity|].
      apply elem_of_cons in Hd as [->|Hd]; [reflexivity|].
      by apply not_elem_of_nil in Hd.
Defined.

(** ** Seeded RNG *)

Lemma ToUint32_range (x : Z) : 0 ≤ ToUint32 x < 2 ^ 32.
Proof.
  unfold ToUint32. case_match; [lia|]. apply Z.mod_pos_bound. lia.
Qed.

Lemma lcg_next_range (s : Z) : 0 ≤ lcg_next s ≤ 4294967295.
Proof.
  unfold lcg_next.
  pose proof (ToUint32_range
    (round_binary64 (round_binary64 (s * 1664525) + 1013904223))). lia.
Qed.

(* Below [2^53] nothing is rounded: from the second call on, the
   recurrence is the exact one modulo [2^32]. *)
Lemma round_binary64_exact (x : Z) : Z.abs x < 2 ^ 53 → round_binary64 x = x.
Proof.
  intros Hx. unfold round_binary64.
  destruct (decide (x = 0)) as [->|Hne]; [done|].
  assert (Z.log2 (Z.abs x) < 53) by (apply Z.log2_lt_pow2; lia).
  case_match eqn:He; [done|]. apply Z.leb_gt in He. lia.
Qed.

Lemma lcg_next_uint32 (s : Z) :
  0 ≤ s < 2 ^ 32 → lcg_next s = (s * 1664525 + 1013904223) mod 2 ^ 32.
Proof.
  intros Hs. unfold lcg_next.
  rewrite (round_binary64_exact (s * 1664525)) by lia.
  rewrite round_binary64_exact by lia.
  unfold ToUint32. case_match eqn:Hinf; [|done].
  apply Z.leb_le in Hinf.
  assert (2 ^ 53 < 2 ^ 1024) by (apply Z.pow_lt_mono_r; lia). lia.
Qed.

Section unit_interval.
Local Open Scope Qc_scope.

Lemma Qc_of_Z_div_bounds (s m : Z) :
  (0 ≤ s ≤ m)%Z → (0 < m)%Z →
  0 ≤ Qc_of_Z s / Qc_of_Z m ≤ 1
  ∧ (Qc_of_Z s / Qc_of_Z m = 1 ↔ s = m).
Proof.
  intros [Hs0 Hsm] Hm.
  pose proof (proj1 (Z2Qc_inj_lt 0 m) Hm) as Hm'. rewrite Z2Qc_inj_0 in Hm'.
  assert (Hne : Qc_of_Z m ≠ 0) by (intros Heq; rewrite Heq in Hm'; by apply Qclt_not_eq in Hm').
  set (r := Qc_of_Z s / Qc_of_Z m).
  assert (Hr : r * Qc_of_Z m = Qc_of_Z s)
    by (rewrite Qcmult_comm; by apply Qcmult_div_r).
  split_and!.
  - apply Qcnot_lt_le. intros Hneg.
    apply (Qcmult_lt_compat_r _ _ _ Hm') in Hneg.
    rewrite Hr, Qcmult_0_l in Hneg. rewrite <-Z2Qc_inj_0 in Hneg.
    apply Z2Qc_inj_lt in Hneg. lia.
  - apply Qcnot_lt_le. intros Hbig.
    apply (Qcmult_lt_compat_r _ _ _ Hm') in Hbig.
    rewrite Hr, Qcmult_1_l in Hbig.
    apply Z2Qc_inj_lt in Hbig. lia.
  - split.
    + intros Hone. rewrite Hone, Qcmult_1_l in Hr. by apply Z2Qc_inj in Hr.
    + intros ->. unfold r, Qcdiv. by apply Qcmult_inv_r.
Qed.

Lemma rng_call_bounds (s : Z) :
  0 ≤ (rng_call (A:=Qc) s).1 ≤ 1
  ∧ ((rng_call (A:=Qc) s).1 = 1 ↔ lcg_next s = 4294967295%Z).
Proof.
  unfold rng_call. simpl. apply Qc_of_Z_div_bounds; [|done].
  apply lcg_next_range.
Qed.

(** C6, as the code has it: every value the generator returns lies in
    the closed interval from 0 to 1, and it is 1 exactly when the new
    state is [2^32 - 1], the divisor. *)
Theorem draws_unit_interval (seed : Z) (k : nat) :
  Forall (λ x : Qc, 0 ≤ x ≤ 1) (draws k seed)
  ∧ ∀ s, (rng_call (A:=Qc) s).1 = 1 ↔ lcg_next s = 4294967295%Z.
Proof.
  split; [|apply rng_call_bounds].
  revert seed. induction k as [|k IH]; intros seed; simpl; [done|].
  constructor; [apply rng_call_bounds|apply IH].
Qed.

(** C6, as stated, fails: the first value returned for the seed
    653637408 is 1. *)
Lemma draws_reach_one :
  draws (A:=Qc) 1 653637408 = [1]
  ∧ ¬ (∀ (seed : Z) (k : nat), Forall (λ x : Qc, 0 ≤ x < 1) (draws k seed)).
Proof.
  assert (Hone : draws (A:=Qc) 1 653637408 = [1]) by exact_eq.
  split; [done|]. intros Hall.
  specialize (Hall 653637408%Z 1%nat). rewrite Hone in Hall.
  apply Forall_cons in Hall as [[_ Hlt] _]. by apply Qclt_not_eq in Hlt.
Qed.

End unit_interval.

(** The same seed in binary64: the state becomes [0xffffffff] and the
    quotient is the double 1. *)
Lemma draws_reach_one_binary64 :
  lcg_next 653637408 = 0xffffffff
  ∧ draws (A:=float) 2 653637408 = [1; 0.23568042047221224]%float.
Proof. split; vm_compute; reflexivity. Qed.

Section determinism.
Context `{Number A}.

Lemma run_two_draws (g1 g2 : nat) (sched : list bool) (σ : list Z) (s1 s2 : Z) :
  g1 ≠ g2 → σ !! g1 = Some s1 → σ !! g2 = Some s2 →
  run_two (A:=A) g1 g2 sched σ
  = Some (draws (calls true sched) s1, draws (calls false sched) s2).
Proof.
  intros Hne. revert σ s1 s2.
  induction sched as [|b sched IH]; intros σ s1 s2 H1 H2; [done|].
  pose proof (lookup_lt_Some _ _ _ H1). pose proof (lookup_lt_Some _ _ _ H2).
  destruct b; simpl; unfold callRng.
  - rewrite H1. simpl.
    erewrite IH; [done|..].
    + by apply list_lookup_insert_eq.
    + by rewrite list_lookup_insert_ne.
  - rewrite H2. simpl.
    erewrite IH; [done|..].
    + by rewrite list_lookup_insert_ne.
    + by apply list_lookup_insert_eq.
Qed.

(** C9: two generators made from one seed return the same [k] values,
    whatever the store held before and in whatever order the two are
    called; the values are those of [draws k seed], a function of the
    seed alone. *)
Theorem createRng_deterministic (seed : Z) (σ : list Z) (sched : list bool) (k : nat) :
  calls true sched = k → calls false sched = k →
  let r1 := createRng seed σ in
  let r2 := createRng seed r1.2 in
  run_two (A:=A) r1.1 r2.1 sched r2.2 = Some (draws k seed, draws k seed).
Proof.
  intros Hk1 Hk2. cbv zeta. unfold createRng. simpl.
  rewrite (run_two_draws _ _ _ _ seed seed).
  - by rewrite Hk1, Hk2.
  - rewrite length_app. simpl. lia.
  - rewrite lookup_app_l by (rewrite length_app; simpl; lia).
    by rewrite lookup_app_r, Nat.sub_diag.
  - rewrite lookup_app_r by done. by rewrite Nat.sub_diag.
Qed.

End determinism.

(** Two generators seeded with 42, called in turn, after another
    generator was made. *)
Lemma createRng_deterministic_witness :
  let r1 := createRng 42 [7] in
  let r2 := createRng 42 r1.2 in
  run_two (A:=float) r1.1 r2.1 [true; false; false; true; true; false] r2.2
  = Some (draws 3 42, draws 3 42).
Proof.
  apply (createRng_deterministic (A:=float) 42 [7]
           [true; false; false; true; true; false] 3); reflexivity.
Defined.

(** ** Sorting *)

Section sort_facts.
Context `{Number A} {B : Type} (cmp : B → B → A).

Lemma sort_insert_perm (x : B) (l : list B) : sort_insert cmp x l ≡ₚ x :: l.
Proof.
  induction l as [|y l IH]; simpl; [done|].
  case_match; [|done]. rewrite IH. apply Permutation_swap.
Qed.

Lemma sort_perm (l : list B) : sort cmp l ≡ₚ l.
Proof.
  induction l as [|x l IH]; simpl; [done|].
  by rewrite sort_insert_perm, IH.
Qed.

Lemma length_sort (l : list B) : length (sort cmp l) = length l.
Proof. by rewrite sort_perm. Qed.

Hypothesis cmp_total : ∀ x y, cmp_le cmp x y ∨ cmp_le cmp y x.
Hypothesis cmp_trans : ∀ x y z, cmp_le cmp x y → cmp_le cmp y z → cmp_le cmp x z.

Lemma sort_insert_sorted (x : B) (l : list B) :
  StronglySorted (cmp_le cmp) l → StronglySorted (cmp_le cmp) (sort_insert cmp x l).
Proof.
  induction 1 as [|y l Hsorted IH Hall]; simpl.
  - repeat constructor.
  - destruct (ngt (cmp x y) (num_of_Z 0)) eqn:Hxy.
    + constructor; [done|].
      rewrite sort_insert_perm. constructor; [|done].
      destruct (cmp_total y x) as [?|Hle]; [done|].
      unfold cmp_le in Hle. congruence.
    + constructor; [by constructor|].
      constructor; [done|].
      eapply Forall_impl; [done|]. intros z Hz. by eapply cmp_trans.
Qed.

Lemma sort_sorted (l : list B) : StronglySorted (cmp_le cmp) (sort cmp l).
Proof.
  induction l as [|x l IH]; simpl; [constructor|].
  by apply sort_insert_sorted.
Qed.

End sort_facts.

(* The same for a comparator that is consistent with a relation [R] on
   the elements of a list [L] only. *)
Section sort_on.
Context `{Number A} {B : Type} (cmp : B → B → A) (R : relation B) (L : list B).
Hypothesis cmp_after : ∀ x y, x ∈ L → y ∈ L →
  ngt (cmp x y) (num_of_Z 0) = true → R y x.
Hypothesis cmp_before : ∀ x y, x ∈ L → y ∈ L →
  ngt (cmp x y) (num_of_Z 0) = false → R x y.
Hypothesis R_trans : ∀ x y z, x ∈ L → y ∈ L → z ∈ L → R x y → R y z → R x z.

Lemma sort_insert_sorted_on (x : B) (l : list B) :
  x ∈ L → l ⊆ L → StronglySorted R l → StronglySorted R (sort_insert cmp x l).
Proof.
  intros Hx Hl Hsorted.
  induction Hsorted as [|y l Hsorted IH Hall]; simpl.
  - repeat constructor.
  - assert (Hy : y ∈ L) by (apply Hl; by left).
    assert (Hl' : l ⊆ L) by (intros z Hz; apply Hl; by right).
    destruct (ngt (cmp x y) (num_of_Z 0)) eqn:Hxy.
    + constructor; [by apply IH|].
      rewrite sort_insert_perm. constructor; [by apply cmp_after|done].
    + constructor; [by constructor|].
      constructor; [by apply cmp_before|].
      apply Forall_forall. intros z Hz.
      apply (R_trans x y z); [done..|by apply Hl'|by apply cmp_before|].
      by apply (proj1 (Forall_forall _ _) Hall).
Qed.

Lemma sort_sorted_on (l : list B) : l ⊆ L → StronglySorted R (sort cmp l).
Proof.
  induction l as [|x l IH]; intros Hl; simpl; [constructor|].
  apply sort_insert_sorted_on.
  - apply Hl. by left.
  - intros z Hz. apply Hl. right. by rewrite <-(sort_perm cmp l).
  - apply IH. intros z Hz. apply Hl. by right.
Qed.

End sort_on.

(** ** Cutoff lookup *)

Section cutoff.
Context `{Number A}.

Lemma array_get_nat {B : Type} (l : list B) (k : nat) :
  array_get l (Z.of_nat k) = l !! k.
Proof.
  unfold array_get. rewrite Nat2Z.id.
  case_match eqn:Hneg; [|done]. apply Z.ltb_lt in Hneg. lia.
Qed.

Lemma array_get_pred {B : Type} (l : list B) (k : nat) :
  k ≠ 0%nat → array_get l (Z.of_nat k - 1) = l !! (k - 1)%nat.
Proof.
  intros Hk. rewrite <-array_get_nat. f_equal. lia.
Qed.

Lemma pvalue_loop_hit (sorted : list (datum A)) (m : nat) (fdrT : A)
    (fuel k k0 : nat) (d0 : datum A) :
  (k ≤ k0 < k + fuel)%nat →
  sorted !! k0 = Some d0 →
  exceeds m fdrT k0 (pval d0) = true →
  (∀ j dj, (k ≤ j < k0)%nat → sorted !! j = Some dj →
           exceeds m fdrT j (pval dj) = false) →
  pvalue_loop sorted m fdrT fuel k
  = if decide (k0 = 0%nat) then pval <$> sorted !! 0%nat
    else pval <$> sorted !! (k0 - 1)%nat.
Proof.
  revert k. induction fuel as [|fuel IH]; intros k Hk Hd0 Hex Hbelow; [lia|].
  simpl. destruct (decide (k = k0)) as [->|Hne].
  - rewrite Hd0. simpl. fold (exceeds m fdrT k0 (pval d0)). rewrite Hex.
    case_decide as Hz; [by rewrite (array_get_nat _ 0)|by rewrite array_get_pred].
  - destruct (lookup_lt_is_Some_2 sorted k) as [d Hd].
    { apply lookup_lt_Some in Hd0. lia. }
    rewrite Hd. simpl. fold (exceeds m fdrT k (pval d)).
    rewrite (Hbelow k d) by (done || lia).
    apply IH; [lia|done..|]. intros j dj Hj. apply Hbelow. lia.
Qed.

Lemma pvalue_loop_miss (sorted : list (datum A)) (m : nat) (fdrT : A)
    (fuel k : nat) :
  (k + fuel)%nat = length sorted →
  (∀ j dj, (k ≤ j)%nat → sorted !! j = Some dj →
           exceeds m fdrT j (pval dj) = false) →
  pvalue_loop sorted m fdrT fuel k = pval <$> array_get sorted (Z.of_nat m - 1).
Proof.
  revert k. induction fuel as [|fuel IH]; intros k Hk Hall; [done|].
  simpl. destruct (lookup_lt_is_Some_2 sorted k) as [d Hd]; [lia|].
  rewrite Hd. simpl. fold (exceeds m fdrT k (pval d)).
  rewrite (Hall k d) by (done || lia).
  apply IH; [lia|]. intros j dj Hj. apply Hall. lia.
Qed.

(** The scan, for any arithmetic: the first index at which the test
    succeeds decides the result, and without one the last entry is
    returned. *)
Lemma pvalueAtFdrThreshold_scan (data : list (datum A)) (fdrT : A) :
  let ps := sorted_pvals data in
  let m := length data in
  (∀ k pk, ps !! k = Some pk → exceeds m fdrT k pk = true →
     (∀ j pj, (j < k)%nat → ps !! j = Some pj → exceeds m fdrT j pj = false) →
     pvalueAtFdrThreshold data fdrT
     = if decide (k = 0%nat) then head ps else ps !! (k - 1)%nat)
  ∧ (data ≠ [] →
     (∀ k pk, ps !! k = Some pk → exceeds m fdrT k pk = false) →
     pvalueAtFdrThreshold data fdrT = last ps).
Proof.
  cbv zeta. unfold sorted_pvals, pvalueAtFdrThreshold.
  set (sorted := sort _ data).
  assert (Hlen : length sorted = length data) by apply length_sort.
  rewrite Hlen. split.
  - intros k pk Hk Hex Hbelow.
    rewrite list_lookup_fmap in Hk.
    destruct (sorted !! k) as [d0|] eqn:Hd0; [|done].
    injection Hk as <-.
    rewrite (pvalue_loop_hit sorted _ fdrT _ 0 k d0); [..|done|done|].
    + rewrite head_lookup, !list_lookup_fmap. done.
    + apply lookup_lt_Some in Hd0. lia.
    + intros j dj Hj Hdj. apply (Hbelow j); [lia|].
      by rewrite list_lookup_fmap, Hdj.
  - intros Hne Hall.
    rewrite pvalue_loop_miss; [|lia|].
    + rewrite array_get_pred by (destruct data; [done|simpl; lia]).
      rewrite last_lookup, list_lookup_fmap, length_fmap, Hlen.
      by rewrite Nat.sub_1_r.
    + intros j dj _ Hdj. apply (Hall j). by rewrite list_lookup_fmap, Hdj.
Qed.

End cutoff.

Section cutoff_exact.
Local Open Scope Qc_scope.

Lemma pval_cmp_le (x y : datum Qc) :
  cmp_le (λ a b, nsub (pval a) (pval b)) x y ↔ pval x ≤ pval y.
Proof.
  unfold cmp_le, ngt. simpl. rewrite bool_decide_eq_false.
  rewrite Z2Qc_inj_0. unfold Qcminus. rewrite <-Qclt_minus_iff.
  symmetry. apply Qcle_ngt.
Qed.

Lemma sorted_pvals_sorted (data : list (datum Qc)) :
  StronglySorted Qcle (sorted_pvals data).
Proof.
  unfold sorted_pvals.
  eapply StronglySorted_fmap; [|apply sort_sorted].
  - intros x y. apply pval_cmp_le.
  - intros x y. rewrite !pval_cmp_le. apply Qc_le_total.
  - intros x y z. rewrite !pval_cmp_le. apply Qcle_trans.
Qed.

Lemma sorted_pvals_perm `{Number A} (data : list (datum A)) :
  sorted_pvals data ≡ₚ pval <$> data.
Proof. unfold sorted_pvals. by rewrite sort_perm. Qed.

Lemma exceeds_raw_ratio (m k : nat) (fdrT pk : Qc) :
  (exceeds m fdrT k pk = true ↔ fdrT < raw_ratio m k pk)
  ∧ (exceeds m fdrT k pk = false ↔ raw_ratio m k pk ≤ fdrT).
Proof.
  unfold exceeds, ngt, raw_ratio. simpl.
  rewrite bool_decide_eq_true, bool_decide_eq_false.
  split; [done|]. symmetry. apply Qcle_ngt.
Qed.

Lemma pvalue_loop_is_Some `{Number A} (sorted : list (datum A)) (fdrT : A)
    (fuel k : nat) :
  sorted ≠ [] → (k + fuel)%nat = length sorted →
  is_Some (pvalue_loop sorted (length sorted) fdrT fuel k).
Proof.
  intros Hne. assert (0 < length sorted)%nat by (destruct sorted; [done|simpl; lia]).
  revert k. induction fuel as [|fuel IH]; intros k Hk; simpl.
  - rewrite array_get_pred by lia. apply fmap_is_Some, lookup_lt_is_Some_2. lia.
  - destruct (lookup_lt_is_Some_2 sorted k) as [d Hd]; [lia|].
    rewrite Hd. simpl. case_match.
    + case_decide.
      * rewrite (array_get_nat _ 0). apply fmap_is_Some, lookup_lt_is_Some_2. lia.
      * rewrite array_get_pred by done.
        apply fmap_is_Some, lookup_lt_is_Some_2. lia.
    + apply IH. lia.
Qed.

End cutoff_exact.

Lemma sorted_pvals_ordered `{Number A} (data : list (datum A)) :
  pvals_ordered data →
  StronglySorted (λ x y, nle x y = true) (sorted_pvals data).
Proof.
  intros Hord. unfold sorted_pvals.
  apply (StronglySorted_fmap pval (λ a b, nle (pval a) (pval b) = true));
    [done|].
  assert (Hin : ∀ x y z : datum A, x ∈ data → y ∈ data → z ∈ data →
    (nle (pval x) (pval y) = true ∨ nle (pval y) (pval x) = true)
    ∧ (ngt (nsub (pval x) (pval y)) (num_of_Z 0) = false
       ↔ nle (pval x) (pval y) = true)
    ∧ (nle (pval x) (pval y) = true → nle (pval y) (pval z) = true →
       nle (pval x) (pval z) = true)).
  { intros x y z Hx Hy Hz. unfold pvals_ordered in Hord. cbv zeta in Hord.
    rewrite Forall_forall in Hord.
    specialize (Hord (pval x) (list_elem_of_fmap_2 _ _ _ Hx)).
    rewrite Forall_forall in Hord.
    destruct (Hord (pval y) (list_elem_of_fmap_2 _ _ _ Hy)) as (Htot & Hcmp & Htr).
    split_and!; [done..|].
    rewrite Forall_forall in Htr.
    apply (Htr (pval z) (list_elem_of_fmap_2 _ _ _ Hz)). }
  apply (sort_sorted_on _ _ data); [..|done].
  - intros x y Hx Hy Hgt. destruct (Hin x y x Hx Hy Hx) as ([Hle|Hle] & Hcmp & _);
      [|done]. apply Hcmp in Hle. congruence.
  - intros x y Hx Hy Hgt. by apply (Hin x y x Hx Hy Hx).
  - intros x y z Hx Hy Hz. by apply (Hin x y z Hx Hy Hz).
Qed.

(* Exact arithmetic orders any p-values. *)
Lemma pvals_ordered_exact (data : list (datum Qc)) : pvals_ordered data.
Proof.
  unfold pvals_ordered. cbv zeta.
  apply Forall_forall. intros x _. apply Forall_forall. intros y _.
  assert (Hle : ∀ a b : Qc, nle a b = true ↔ (a ≤ b)%Qc)
    by (intros a b; apply bool_decide_eq_true).
  split_and!.
  - rewrite !Hle. apply Qc_le_total.
  - rewrite Hle. unfold ngt. simpl. rewrite bool_decide_eq_false.
    rewrite Z2Qc_inj_0. unfold Qcminus. rewrite <-Qclt_minus_iff.
    symmetry. apply Qcle_ngt.
  - apply Forall_forall. intros z _. rewrite !Hle. apply Qcle_trans.
Qed.

(** C5, in the arithmetic of the program and in any other: on a
    non-empty dataset the lookup returns a p-value.  The p-values are
    scanned in the order of the sort, which is ascending wherever the
    p-values are ordered by [<=]; the ratio [p * m / (k + 1)] is computed
    for each and tested against the threshold; at the first rank whose
    computed ratio exceeds the threshold the p-value of the rank before
    is returned, or the first, smallest one if that rank is the first; if
    no computed ratio exceeds the threshold the last, largest p-value is
    returned. *)
Theorem pvalueAtFdrThreshold_first_failure `{Number A} (data : list (datum A))
    (fdrT : A) :
  data ≠ [] →
  let ps := sorted_pvals data in
  let m := length data in
  ps ≡ₚ pval <$> data
  ∧ (pvals_ordered data → StronglySorted (λ x y, nle x y = true) ps)
  ∧ is_Some (pvalueAtFdrThreshold data fdrT)
  ∧ (∀ k pk, ps !! k = Some pk → exceeds m fdrT k pk = true →
       (∀ j pj, (j < k)%nat → ps !! j = Some pj → exceeds m fdrT j pj = false) →
       pvalueAtFdrThreshold data fdrT
       = if decide (k = 0%nat) then head ps else ps !! (k - 1)%nat)
  ∧ ((∀ k pk, ps !! k = Some pk → exceeds m fdrT k pk = false) →
     pvalueAtFdrThreshold data fdrT = last ps).
Proof.
  intros Hne. cbv zeta.
  destruct (pvalueAtFdrThreshold_scan data fdrT) as [Hhit Hmiss].
  split_and!.
  - apply sorted_pvals_perm.
  - apply sorted_pvals_ordered.
  - unfold pvalueAtFdrThreshold. apply pvalue_loop_is_Some; [|done].
    intros Hnil. apply Hne. apply Permutation_nil_r.
    by rewrite <-Hnil, sort_perm.
  - exact Hhit.
  - intros Hall. by apply Hmiss.
Qed.

(** [five_points] in binary64 with the threshold 0.049999999999999996,
    the double just below 0.05.  The computed ratios are 0.005, 0.005,
    0.049999999999999996, 1.125 and 0.95: the ratio of the third rank,
    [0.03 * 5 / 3], is rounded to the threshold itself and does not exceed
    it, the fourth rank is the first to fail, and the third p-value is
    returned. *)
Lemma pvalueAtFdrThreshold_first_failure_witness :
  sorted_pvals five_points = [0.001; 0.002; 0.03; 0.9; 0.95]%float
  ∧ StronglySorted (λ x y, nle x y = true) (sorted_pvals five_points)
  ∧ pvalueAtFdrThreshold five_points 0.049999999999999996%float
    = Some 0.03%float.
Proof.
  destruct (pvalueAtFdrThreshold_first_failure five_points
              0.049999999999999996%float)
    as (_ & Hsorted & _ & Hhit & _); [discriminate|].
  split; [vm_compute; reflexivity|]. split.
  - apply Hsorted. apply (bool_decide_unpack _). vm_compute. exact I.
  - rewrite (Hhit 3%nat 0.9%float).
    + vm_compute. reflexivity.
    + vm_compute. reflexivity.
    + vm_compute. reflexivity.
    + intros j pj Hj Hpj.
      assert (Hps : sorted_pvals five_points = [0.001; 0.002; 0.03; 0.9; 0.95]%float)
        by (vm_compute; reflexivity).
      rewrite Hps in Hpj.
      destruct j as [|[|[|j]]]; [..|lia]; injection Hpj as <-;
        vm_compute; reflexivity.
Defined.

(** ** What the engine computes *)

Section bh_facts.
Context `{Number A}.

Lemma bh_loop_spec (n : nat) (indexed : list (indexed_p A)) (fuel k : nat)
    (fdr : list (option A)) :
  (k + fuel)%nat = length indexed →
  NoDup (ip_i <$> indexed) →
  (∀ e, e ∈ indexed → (ip_i e < length fdr)%nat) →
  ∃ out, bh_loop n indexed fuel k fdr = Some out
    ∧ length out = length fdr
    ∧ (∀ j e, (k ≤ j)%nat → indexed !! j = Some e →
         out !! ip_i e = Some (Some (bh_value n j (ip_p e))))
    ∧ (∀ i, (∀ j e, (k ≤ j)%nat → indexed !! j = Some e → ip_i e ≠ i) →
         out !! i = fdr !! i).
Proof.
  intros Hlen Hnodup. revert k fdr Hlen.
  induction fuel as [|fuel IH]; intros k fdr Hlen Hin; simpl.
  - exists fdr. split_and!; [done..| |done].
    intros j e Hj He. apply lookup_lt_Some in He. lia.
  - destruct (lookup_lt_is_Some_2 indexed k) as [e He]; [lia|].
    rewrite He. simpl. fold (bh_value n k (ip_p e)).
    destruct (IH (S k) (<[ip_i e:=Some (bh_value n k (ip_p e))]> fdr))
      as (out & Hout & Hlout & Hset & Hframe); [lia| |].
    { intros e' He'. rewrite length_insert. by apply Hin. }
    exists out. rewrite length_insert in Hlout. split_and!; [done..| |].
    + intros j e' Hj He'. destruct (decide (j = k)) as [->|Hne].
      * assert (e' = e) as -> by congruence.
        rewrite Hframe.
        { apply list_lookup_insert_eq, Hin. by eapply list_elem_of_lookup_2. }
        intros j e' Hj' He'' Heq.
        assert (j = k); [|lia].
        apply (NoDup_lookup _ _ _ (ip_i e) Hnodup);
          rewrite list_lookup_fmap; [rewrite He''|rewrite He]; simpl; congruence.
      * apply Hset; [lia|done].
    + intros i Hi. rewrite Hframe.
      * apply list_lookup_insert_ne. by apply (Hi k e).
      * intros j e' Hj. apply Hi. lia.
Qed.

Lemma bh_indexed_perm (pvals : list A) :
  bh_indexed pvals ≡ₚ imap (λ i p, {| ip_p := p; ip_i := i |}) pvals.
Proof. apply sort_perm. Qed.

Lemma imap_indexed_elem (pvals : list A) (e : indexed_p A) :
  e ∈ imap (λ i p, {| ip_p := p; ip_i := i |}) pvals
  ↔ pvals !! ip_i e = Some (ip_p e).
Proof.
  rewrite list_elem_of_lookup. split.
  - intros [j Hj]. rewrite list_lookup_imap in Hj.
    destruct (pvals !! j) as [pj|] eqn:Hpj; [|done].
    simpl in Hj. injection Hj as <-. done.
  - intros He. exists (ip_i e). rewrite list_lookup_imap, He.
    by destruct e.
Qed.

Lemma imap_indexed_indices (pvals : list A) :
  ip_i <$> imap (λ i p, {| ip_p := p; ip_i := i |}) pvals
  = seq 0 (length pvals).
Proof.
  apply list_eq. intros j.
  rewrite list_lookup_fmap, list_lookup_imap.
  destruct (pvals !! j) as [pj|] eqn:Hpj; simpl.
  - symmetry. apply lookup_seq. split; [done|]. by eapply lookup_lt_Some.
  - symmetry. apply lookup_seq_ge. by apply lookup_ge_None.
Qed.

(** The engine never throws and fills every slot: the entry of rank
    [k + 1] in ascending p-value order receives [min(1, p * n / (k + 1))]
    at its original index, and nothing is done after that. *)
Lemma benjaminiHochberg_raw (pvals : list A) :
  ∃ out, benjaminiHochberg pvals = Some out
    ∧ length out = length pvals
    ∧ (∀ k e, bh_indexed pvals !! k = Some e →
         pvals !! ip_i e = Some (ip_p e)
         ∧ out !! ip_i e = Some (Some (bh_value (length pvals) k (ip_p e))))
    ∧ (∀ i, (i < length pvals)%nat → ∃ v, out !! i = Some (Some v)).
Proof.
  unfold benjaminiHochberg. fold (bh_indexed pvals).
  assert (Hlen : length (bh_indexed pvals) = length pvals).
  { unfold bh_indexed. by rewrite length_sort, length_imap. }
  assert (Hidx : ip_i <$> bh_indexed pvals ≡ₚ seq 0 (length pvals)).
  { by rewrite bh_indexed_perm, imap_indexed_indices. }
  destruct (bh_loop_spec (length pvals) (bh_indexed pvals) (length pvals) 0
              (replicate (length pvals) None))
    as (out & Hout & Hlout & Hset & _).
  - by rewrite Hlen.
  - rewrite Hidx. apply NoDup_seq.
  - intros e He. rewrite length_replicate.
    assert (ip_i e ∈ seq 0 (length pvals)) as Hi
      by (rewrite <-Hidx; by apply list_elem_of_fmap_2).
    apply elem_of_seq in Hi. lia.
  - exists out. rewrite length_replicate in Hlout. split_and!; [done..| |].
    + intros k e He. split; [|apply (Hset k); [lia|done]].
      apply imap_indexed_elem. rewrite <-bh_indexed_perm.
      by eapply list_elem_of_lookup_2.
    + intros i Hi.
      assert (i ∈ ip_i <$> bh_indexed pvals) as Hin
        by (rewrite Hidx; apply elem_of_seq; lia).
      apply list_elem_of_fmap in Hin as (e & -> & He).
      apply list_elem_of_lookup in He as [k Hk].
      eexists. apply (Hset k e); [lia|done].
Qed.

End bh_facts.


(** * Further properties of the code *)

(** ** Redrawing *)

Section redraw_facts.
Context `{Number A}.

Lemma redraw_topN (st : State A) : topN (redraw st) = topN st.
Proof. unfold redraw. by case_decide. Qed.

Lemma redraw_showLabels (st : State A) : showLabels (redraw st) = showLabels st.
Proof. unfold redraw. by case_decide. Qed.

Lemma redraw_data (st : State A) :
  data (redraw st)
  = (λ d, set_category (getCategory d (fcThreshold st) (fdrThreshold st)) d)
    <$> data st.
Proof.
  unfold redraw. case_decide as Hlen; [|done].
  by rewrite (nil_length_inv _ Hlen).
Qed.

Lemma getCategory_set_category (c : category) (d : datum A) (fcT fdrT : A) :
  getCategory (set_category c d) fcT fdrT = getCategory d fcT fdrT.
Proof. done. Qed.

Lemma sort_fmap {B : Type} (cmp : B → B → A) (g : B → B) (l : list B) :
  (∀ x y, cmp (g x) (g y) = cmp x y) →
  sort cmp (g <$> l) = g <$> sort cmp l.
Proof.
  intros Hg. unfold sort. induction l as [|x l IH]; [done|].
  csimpl. rewrite IH. clear IH.
  induction (foldr (sort_insert cmp) [] l) as [|y l' IH]; [done|].
  csimpl. rewrite Hg. case_match; [|done]. csimpl. by rewrite IH.
Qed.

Lemma pvalue_loop_fmap (g : datum A → datum A) (sorted : list (datum A))
    (m : nat) (fdrT : A) (fuel k : nat) :
  (∀ d, pval (g d) = pval d) →
  pvalue_loop (g <$> sorted) m fdrT fuel k = pvalue_loop sorted m fdrT fuel k.
Proof.
  intros Hg.
  assert (Hget : ∀ z, pval <$> array_get (g <$> sorted) z = pval <$> array_get sorted z).
  { intros z. unfold array_get. case_match; [done|].
    rewrite list_lookup_fmap. destruct (sorted !! _); simpl; [|done].
    by rewrite Hg. }
  revert k. induction fuel as [|fuel IH]; intros k; simpl; [apply Hget|].
  rewrite list_lookup_fmap. destruct (sorted !! k) as [d|]; simpl; [|done].
  rewrite Hg. case_match; [|apply IH].
  case_decide; apply Hget.
Qed.

Lemma pvalueAtFdrThreshold_fmap (g : datum A → datum A) (l : list (datum A))
    (fdrT : A) :
  (∀ d, pval (g d) = pval d) →
  pvalueAtFdrThreshold (g <$> l) fdrT = pvalueAtFdrThreshold l fdrT.
Proof.
  intros Hg. unfold pvalueAtFdrThreshold.
  rewrite sort_fmap by (intros x y; by rewrite !Hg).
  rewrite length_fmap. by apply pvalue_loop_fmap.
Qed.

Lemma redraw_fresh_aux (st : State A) :
  categories_fresh (redraw st)
  ∧ Forall2 same_point (data (redraw st)) (data st)
  ∧ (data st ≠ [] →
     pvalAtFdr (redraw st) = pvalueAtFdrThreshold (data st) (fdrThreshold st)
     ∧ is_Some (pvalAtFdr (redraw st))).
Proof.
  split_and!.
  - intros d. rewrite redraw_fcThreshold, redraw_fdrThreshold, redraw_data.
    intros (d0 & -> & _)%list_elem_of_fmap. done.
  - rewrite redraw_data. apply Forall2_fmap_l, Forall_Forall2_diag, Forall_true.
    intros d. by repeat split.
  - intros Hne. unfold redraw. rewrite decide_False by (by destruct (data st)).
    simpl. split; [done|].
    unfold pvalueAtFdrThreshold. apply pvalue_loop_is_Some; [|done].
    intros Hnil. apply Hne, Permutation_nil_r. by rewrite <-Hnil, sort_perm.
Qed.

(** After [redraw] every point carries the category of its coordinates
    under the current thresholds, the points are otherwise what they were,
    and on a non-empty dataset the stored cutoff is the p-value looked up
    for the current FDR threshold. *)
Theorem redraw_fresh (st : State A) :
  categories_fresh (redraw st)
  ∧ Forall2 same_point (data (redraw st)) (data st)
  ∧ (data st ≠ [] →
     pvalAtFdr (redraw st) = pvalueAtFdrThreshold (data st) (fdrThreshold st)
     ∧ is_Some (pvalAtFdr (redraw st))).
Proof. exact (redraw_fresh_aux st). Qed.

Lemma redraw_idempotent_aux (st : State A) : redraw (redraw st) = redraw st.
Proof.
  destruct (decide (length (data st) = 0%nat)) as [Hlen|Hlen].
  { assert (Hst : redraw st = st) by (unfold redraw; by rewrite decide_True).
    by rewrite !Hst. }
  unfold redraw at 2. rewrite decide_False by done.
  unfold redraw. rewrite decide_False by (simpl; by rewrite length_fmap).
  unfold set_data, set_pvalAtFdr. simpl.
  rewrite pvalueAtFdrThreshold_fmap by done.
  rewrite decide_False by done. rewrite <-list_fmap_compose.
  done.
Qed.

(** Redrawing twice is redrawing once. *)
Theorem redraw_idempotent (st : State A) : redraw (redraw st) = redraw st.
Proof. exact (redraw_idempotent_aux st). Qed.

End redraw_facts.

(** ** Pinning and clearing *)

Section pin_facts.
Context `{Number A} `{!MathAbs A}.

Lemma redraw_set_pinned (v : gset jsstring) (st : State A) :
  redraw (set_pinned v st) = set_pinned v (redraw st).
Proof. unfold redraw. simpl. by case_decide. Qed.

Lemma set_pinned_set_pinned (v w : gset jsstring) (st : State A) :
  set_pinned v (set_pinned w st) = set_pinned v st.
Proof. done. Qed.

Lemma set_pinned_id (st : State A) : set_pinned (pinned st) st = st.
Proof. by destruct st. Qed.

(** With no box selection, the first click on a point pins it or unpins
    it, and a second click on the same point undoes the first: the state
    is the one a mere redraw would give. *)
Theorem point_click_twice (d : datum A) (st : State A) :
  selected st = ∅ →
  (id d ∈ pinned (point_click d st) ↔ id d ∉ pinned st)
  ∧ (∀ i, i ≠ id d → i ∈ pinned (point_click d st) ↔ i ∈ pinned st)
  ∧ point_click d (point_click d st) = redraw st.
Proof.
  intros Hsel.
  assert (Hclick : ∀ st' : State A, selected st' = ∅ →
    point_click d st'
    = set_pinned (if decide (id d ∈ pinned st') then pinned st' ∖ {[id d]}
                  else {[id d]} ∪ pinned st') (redraw st')).
  { intros st' Hsel'. unfold point_click. rewrite Hsel', size_empty.
    rewrite decide_False by lia. case_decide; apply redraw_set_pinned. }
  rewrite (Hclick st Hsel). split_and!.
  - simpl. case_decide; set_solver.
  - intros i Hi. simpl. case_decide; set_solver.
  - rewrite Hclick by (simpl; by rewrite redraw_selected).
    rewrite redraw_set_pinned, redraw_idempotent_aux, set_pinned_set_pinned.
    simpl. transitivity (set_pinned (pinned (redraw st)) (redraw st));
      [|apply set_pinned_id].
    rewrite redraw_pinned. f_equal.
    destruct (decide (id d ∈ pinned st)) as [Hin|Hin].
    + rewrite decide_False by set_solver.
      apply set_eq. intros i. destruct (decide (i = id d)); set_solver.
    + rewrite decide_True by set_solver. set_solver.
Qed.

(** A click on the empty plot area empties the pinned set and the
    selection and leaves thresholds, top-N, search highlight and zoom
    window alone, unless the event was already handled
    ([defaultPrevented]), in which case nothing changes.  After a
    clearing click, a click on a point pins that point alone. *)
Theorem overlay_click_clears (d : datum A) (st : State A) :
  overlay_click true st = st
  ∧ pinned (overlay_click false st) = ∅
  ∧ selected (overlay_click false st) = ∅
  ∧ fcThreshold (overlay_click false st) = fcThreshold st
  ∧ fdrThreshold (overlay_click false st) = fdrThreshold st
  ∧ topN (overlay_click false st) = topN st
  ∧ searchHighlightId (overlay_click false st) = searchHighlightId st
  ∧ zoomDomain (overlay_click false st) = zoomDomain st
  ∧ pinned (point_click d (overlay_click false st)) = {[id d]}.
Proof.
  unfold overlay_click.
  rewrite redraw_pinned, redraw_selected, redraw_fcThreshold,
    redraw_fdrThreshold, redraw_topN, redraw_searchHighlightId,
    redraw_zoomDomain.
  split_and!; try done.
  rewrite point_click_pin by (by rewrite redraw_selected).
  rewrite redraw_pinned. simpl. rewrite decide_False by set_solver. set_solver.
Qed.

(** The top-N input: the stored value always lies between 0 and 50; an
    input of 0 is replaced by 10, as an unreadable one is, so that 0 is
    stored for negative inputs only. *)
Theorem topN_change_clamped (parsed : option Z) (st : State A) :
  0 ≤ topN (topN_change parsed st) ≤ 50
  ∧ topN (topN_change parsed st)
    = match parsed with
      | None => 10
      | Some n =>
          if decide (n = 0) then 10
          else if decide (n < 0) then 0
          else if decide (50 < n) then 50 else n
      end
  ∧ (topN (topN_change parsed st) = 0 ↔ ∃ n, parsed = Some n ∧ n < 0).
Proof.
  unfold topN_change. rewrite redraw_topN. simpl.
  destruct parsed as [n|].
  - repeat case_decide; split_and!; try lia.
    all: split; [intros ?; exists n; split; [done|lia]|intros (? & [= <-] & ?); lia].
  - split_and!; [lia..|done|]. split; [lia|]. by intros (? & ? & ?).
Qed.

End pin_facts.

(** ** Box selection *)

Section box_facts.
Context `{Number A} `{!MathAbs A}.

Lemma point_click_noop (d : datum A) (st : State A) :
  (0 < size (selected st))%nat → point_click d st = st.
Proof. intros Hsize. unfold point_click. by rewrite decide_True. Qed.

Lemma elem_of_box_fold (f : datum A → bool) (l : list (datum A))
    (sel : gset jsstring) (i : jsstring) :
  i ∈ foldl (λ sel d, if f d then {[id d]} ∪ sel else sel) sel l
  ↔ i ∈ sel ∨ ∃ d, d ∈ l ∧ id d = i ∧ f d = true.
Proof.
  revert sel. induction l as [|d l IH]; intros sel; simpl.
  - split; [by left|]. intros [?|(d & Hd & _)]; [done|].
    by apply not_elem_of_nil in Hd.
  - rewrite IH. split.
    + intros [Hi|(d' & Hd' & Hid & Hf)].
      * destruct (f d) eqn:Hfd; [|by left].
        apply elem_of_union in Hi as [Hi|Hi]; [|by left].
        apply elem_of_singleton in Hi. right. exists d.
        split_and!; [by left|done..].
      * right. exists d'. split_and!; [by right|done..].
    + intros [Hi|(d' & Hd' & Hid & Hf)].
      * left. destruct (f d); set_solver.
      * apply elem_of_cons in Hd' as [->|Hd'].
        -- left. rewrite Hf. set_solver.
        -- right. by exists d'.
Qed.

(** A mouse-up that does not end a box selection (no drag in progress,
    another button, or a box of four pixels or less in width or height)
    leaves the state as it is; the drag is over unless the handler
    returned at its first test. *)
Theorem endBox_ignored (xi yi : A → A) (button : Z) (pt : A * A)
    (boxStart : option (A * A)) (st : State A) :
  box_committed button pt boxStart = false →
  (endBox xi yi button pt boxStart st).2 = st
  ∧ (endBox xi yi button pt boxStart st).1
    = if decide (button = 0) then None else boxStart.
Proof.
  unfold box_committed, endBox. destruct boxStart as [start|].
  - intros Hc. destruct (decide (button = 0)) as [Hb|Hb].
    + rewrite decide_False by tauto. rewrite bool_decide_eq_true_2 in Hc by done.
      simpl in Hc. by rewrite Hc.
    + by rewrite decide_True.
  - intros _. by case_decide.
Qed.

Lemma endBox_selects_aux (xi yi : A → A) (button : Z) (start pt : A * A)
    (st : State A) :
  box_committed button pt (Some start) = true →
  let '(x0, x1, y0, y1) := box_corners xi yi start pt in
  let r := endBox xi yi button pt (Some start) st in
  r.1 = None
  ∧ (∀ i, i ∈ selected r.2
       ↔ ∃ d, d ∈ data st ∧ id d = i ∧ in_box x0 x1 y0 y1 d = true)
  ∧ pinned r.2 = pinned st
  ∧ fcThreshold r.2 = fcThreshold st
  ∧ fdrThreshold r.2 = fdrThreshold st
  ∧ searchHighlightId r.2 = searchHighlightId st
  ∧ zoomDomain r.2 = zoomDomain st.
Proof.
  unfold box_committed, box_corners, endBox. simpl.
  intros Hc. apply andb_prop in Hc as [Hc Hh]. apply andb_prop in Hc as [Hb Hw].
  apply bool_decide_eq_true in Hb.
  rewrite decide_False by tauto.
  rewrite Hw, Hh. simpl.
  rewrite redraw_selected, redraw_pinned, redraw_fcThreshold,
    redraw_fdrThreshold, redraw_searchHighlightId, redraw_zoomDomain. simpl.
  split_and!; try done.
  intros i. rewrite elem_of_box_fold. set_solver.
Qed.

(** A mouse-up that ends a box selection replaces the selection by the
    ids of the points inside the box, whatever was selected before, ends
    the drag and leaves pinned set, thresholds, search highlight and zoom
    window alone. *)
Theorem endBox_selects (xi yi : A → A) (button : Z) (start pt : A * A)
    (st : State A) :
  box_committed button pt (Some start) = true →
  let '(x0, x1, y0, y1) := box_corners xi yi start pt in
  let r := endBox xi yi button pt (Some start) st in
  r.1 = None
  ∧ (∀ i, i ∈ selected r.2
       ↔ ∃ d, d ∈ data st ∧ id d = i ∧ in_box x0 x1 y0 y1 d = true)
  ∧ pinned r.2 = pinned st
  ∧ fcThreshold r.2 = fcThreshold st
  ∧ fdrThreshold r.2 = fdrThreshold st
  ∧ searchHighlightId r.2 = searchHighlightId st
  ∧ zoomDomain r.2 = zoomDomain st.
Proof. exact (endBox_selects_aux xi yi button start pt st). Qed.

(** After a box selection that caught a point, a click on any point
    changes nothing: the pinned set cannot be touched while the selection
    lasts. *)
Theorem endBox_then_point_click (xi yi : A → A) (button : Z) (start pt : A * A)
    (st : State A) (d d' : datum A) :
  box_committed button pt (Some start) = true →
  let '(x0, x1, y0, y1) := box_corners xi yi start pt in
  d ∈ data st → in_box x0 x1 y0 y1 d = true →
  let st' := (endBox xi yi button pt (Some start) st).2 in
  point_click d' st' = st' ∧ pinned st' = pinned st.
Proof.
  intros Hc. pose proof (endBox_selects_aux xi yi button start pt st Hc) as Hsel.
  destruct (box_corners xi yi start pt) as [[[x0 x1] y0] y1].
  cbv zeta in *. destruct Hsel as (_ & Hsel & Hpin & _).
  intros Hd Hin. split; [|done].
  apply point_click_noop.
  assert (id d ∈ selected (endBox xi yi button pt (Some start) st).2) as Hi
    by (apply Hsel; eauto).
  apply Nat.neq_0_lt_0. intros Hsize.
  apply size_empty_iff in Hsize. set_solver.
Qed.

End box_facts.

(** In exact arithmetic the box test is the closed rectangle spanned by
    the corners, in whichever order they come. *)
Theorem in_box_exact (x0 x1 y0 y1 : Qc) (d : datum Qc) :
  in_box x0 x1 y0 y1 d = true
  ↔ ((x0 ≤ log2FC d ≤ x1)%Qc ∨ (x1 ≤ log2FC d ≤ x0)%Qc)
    ∧ ((y0 ≤ negLog10P d ≤ y1)%Qc ∨ (y1 ≤ negLog10P d ≤ y0)%Qc).
Proof.
  unfold in_box, nge. simpl. rewrite !andb_true_iff, !bool_decide_eq_true.
  unfold ExactNumber.min, ExactNumber.max.
  pose proof (Qcle_trans) as Htrans.
  pose proof (Qclt_le_weak) as Hweak.
  pose proof (Qcnot_lt_le) as Hnlt.
  repeat case_decide; naive_solver.
Qed.

(** A drag of two pixels in width on [zoomed_state]. *)
Lemma endBox_ignored_witness :
  let r := endBox (A:=Qc) (λ px, px) (λ py, py) 0
             (num_of_Z 3, num_of_Z 50) (Some (num_of_Z 1, num_of_Z 1))
             zoomed_state in
  r.2 = zoomed_state ∧ r.1 = if decide (0 = 0) then None else Some (num_of_Z 1, num_of_Z 1).
Proof.
  apply (endBox_ignored (A:=Qc) (λ px, px) (λ py, py) 0
           (num_of_Z 3, num_of_Z 50) (Some (num_of_Z 1, num_of_Z 1)) zoomed_state).
  vm_compute. reflexivity.
Defined.

(** A drag over the first point of [zoomed_state], with identity scales. *)
Lemma endBox_selects_witness :
  let '(x0, x1, y0, y1) :=
    box_corners (A:=Qc) (λ px, px) (λ py, py)
      (num_of_Z 1, num_of_Z (-5)) (num_of_Z 10, num_of_Z 5) in
  let r := endBox (A:=Qc) (λ px, px) (λ py, py) 0
             (num_of_Z 10, num_of_Z 5) (Some (num_of_Z 1, num_of_Z (-5)))
             zoomed_state in
  r.1 = None
  ∧ (∀ i, i ∈ selected r.2
       ↔ ∃ d, d ∈ data zoomed_state ∧ id d = i ∧ in_box x0 x1 y0 y1 d = true)
  ∧ pinned r.2 = pinned zoomed_state
  ∧ fcThreshold r.2 = fcThreshold zoomed_state
  ∧ fdrThreshold r.2 = fdrThreshold zoomed_state
  ∧ searchHighlightId r.2 = searchHighlightId zoomed_state
  ∧ zoomDomain r.2 = zoomDomain zoomed_state.
Proof.
  apply (endBox_selects (A:=Qc) (λ px, px) (λ py, py) 0
           (num_of_Z 1, num_of_Z (-5)) (num_of_Z 10, num_of_Z 5) zoomed_state).
  vm_compute. reflexivity.
Defined.

(** The same drag, followed by a click on the second point. *)
Lemma endBox_then_point_click_witness :
  let st' := (endBox (A:=Qc) (λ px, px) (λ py, py) 0
                (num_of_Z 10, num_of_Z 5) (Some (num_of_Z 1, num_of_Z (-5)))
                zoomed_state).2 in
  let d' := point (js "BRCA1_2") (num_of_Z (-1)) (num_lit (4 # 10)) (num_lit (4 # 10)) in
  point_click d' st' = st' ∧ pinned st' = pinned zoomed_state.
Proof.
  apply (endBox_then_point_click (A:=Qc) (λ px, px) (λ py, py) 0
           (num_of_Z 1, num_of_Z (-5)) (num_of_Z 10, num_of_Z 5) zoomed_state
           (point (js "TP53_1") (num_of_Z 2) (num_lit (1 # 100)) (num_lit (2 # 100)))).
  - vm_compute. reflexivity.
  - simpl. by left.
  - vm_compute. reflexivity.
Defined.

(** ** Labels *)

Section label_facts.
Context `{Number A} `{!MathAbs A}.

Lemma elem_of_fold_add (l : list jsstring) (s : gset jsstring) (i : jsstring) :
  i ∈ foldl (λ s i, {[i]} ∪ s) s l ↔ i ∈ s ∨ i ∈ l.
Proof.
  revert s. induction l as [|j l IH]; intros s; simpl.
  - set_solver.
  - rewrite IH. set_solver.
Qed.

Lemma slice_to_prefix {B : Type} (l : list B) (end_ : Z) :
  ∃ rest, l = slice_to l end_ ++ rest.
Proof. unfold slice_to. eexists. symmetry. apply take_drop. Qed.

Lemma elem_of_topSignificant (st : State A) (d : datum A) :
  d ∈ topSignificant st → d ∈ data st ∧ _category d ≠ Some not_sig.
Proof.
  unfold topSignificant. intros Hd.
  destruct (slice_to_prefix
    (sort (λ a b, nsub (pval a) (pval b))
       (filter (λ d, _category d ≠ Some not_sig) (data st))) (topN st))
    as [rest Hrest].
  assert (d ∈ filter (λ d, _category d ≠ Some not_sig) (data st)) as Hf.
  { rewrite <-(sort_perm (λ a b, nsub (pval a) (pval b))), Hrest.
    apply elem_of_app. by left. }
  by apply list_elem_of_filter in Hf as [? ?].
Qed.

(** The ids that get a label are the pinned ids and, when labels are
    shown, the ids of the top significant points; pinned points are
    labelled even when labels are switched off, and then nothing else
    is. *)
Theorem toLabel_spec (st : State A) :
  (∀ i, i ∈ toLabel st
     ↔ i ∈ pinned st
       ∨ (showLabels st = true ∧ ∃ d, d ∈ topSignificant st ∧ id d = i))
  ∧ pinned st ⊆ toLabel st
  ∧ (showLabels st = false → toLabel st = pinned st).
Proof.
  assert (Hmem : ∀ i, i ∈ toLabel st
     ↔ i ∈ pinned st
       ∨ (showLabels st = true ∧ ∃ d, d ∈ topSignificant st ∧ id d = i)).
  { intros i. unfold toLabel. rewrite elem_of_fold_add, elem_of_elements.
    rewrite elem_of_list_to_set. destruct (showLabels st).
    - rewrite list_elem_of_fmap. naive_solver.
    - split; [intros [Hi|?]; [by apply not_elem_of_nil in Hi|by left]|].
      intros [?|[? _]]; [by right|done]. }
  split_and!; [done| |].
  - intros i Hi. apply Hmem. by left.
  - intros Hoff. apply set_eq. intros i. rewrite Hmem, Hoff. naive_solver.
Qed.

(** What [redraw] labels: nothing is drawn for an empty dataset;
    otherwise every labelled point is pinned or, labels being shown, has
    the id of a point that is significant under the current thresholds,
    and every point with a pinned id is labelled. *)
Theorem redraw_labels_spec (st : State A) :
  (redraw_labels st = None ↔ data st = [])
  ∧ ∀ l, redraw_labels st = Some l →
      (∀ d, d ∈ l →
         d ∈ data (redraw st)
         ∧ (id d ∈ pinned st
            ∨ (showLabels st = true
               ∧ ∃ d', d' ∈ data (redraw st) ∧ id d' = id d
                   ∧ getCategory d' (fcThreshold st) (fdrThreshold st) ≠ not_sig)))
      ∧ (∀ d, d ∈ data (redraw st) → id d ∈ pinned st → d ∈ l).
Proof.
  unfold redraw_labels. split.
  - case_decide as Hlen; [by rewrite (nil_length_inv _ Hlen)|].
    split; [done|]. intros Hnil. by rewrite Hnil in Hlen.
  - intros l. case_decide as Hlen; [done|]. intros [= <-].
    destruct (toLabel_spec (redraw st)) as (Hmem & Hpin & _).
    destruct (redraw_fresh_aux st) as (Hfresh & _).
    rewrite redraw_pinned in Hpin. split.
    + intros d [Hlab Hd]%list_elem_of_filter. split; [done|].
      apply Hmem in Hlab as [Hlab|(Hshow & d' & Hd' & Hid)].
      * left. by rewrite redraw_pinned in Hlab.
      * right. rewrite redraw_showLabels in Hshow. split; [done|].
        apply elem_of_topSignificant in Hd' as [Hd' Hcat].
        exists d'. split_and!; [done..|].
        rewrite (Hfresh d' Hd') in Hcat.
        rewrite redraw_fcThreshold, redraw_fdrThreshold in Hcat. congruence.
    + intros d Hd Hid. apply list_elem_of_filter. split; [|done].
      by apply Hpin.
Qed.

(** With a top-N of zero or more, at most that many points are taken,
    and all of them if there are fewer significant points. *)
Theorem topSignificant_length (st : State A) :
  0 ≤ topN st →
  length (topSignificant st)
  = (Z.to_nat (topN st)
     `min` length (filter (λ d, _category d ≠ Some not_sig) (data st)))%nat.
Proof.
  intros Hn. unfold topSignificant, slice_to.
  rewrite length_take, length_sort.
  destruct (topN st <? 0) eqn:Hneg; [apply Z.ltb_lt in Hneg; lia|done].
Qed.

End label_facts.

(** In exact arithmetic the points taken are listed by ascending p-value
    and no significant point left out has a smaller p-value than one
    taken. *)
Theorem topSignificant_smallest (st : State Qc) :
  StronglySorted Qcle (pval <$> topSignificant st)
  ∧ ∀ d d', d ∈ topSignificant st →
      d' ∈ data st → _category d' ≠ Some not_sig → d' ∉ topSignificant st →
      (pval d ≤ pval d')%Qc.
Proof.
  unfold topSignificant.
  set (sig := filter (λ d, _category d ≠ Some not_sig) (data st)).
  destruct (slice_to_prefix (sort (λ a b, nsub (pval a) (pval b)) sig) (topN st))
    as [rest Hrest].
  set (top := slice_to _ _) in *.
  assert (Hsorted : StronglySorted Qcle (pval <$> (top ++ rest))).
  { rewrite <-Hrest. apply sorted_pvals_sorted. }
  rewrite fmap_app in Hsorted. split.
  - by apply StronglySorted_app_1_l in Hsorted.
  - intros d d' Hd Hd' Hcat Hnot.
    assert (d' ∈ top ++ rest) as Hin.
    { rewrite <-Hrest, sort_perm. by apply list_elem_of_filter. }
    apply elem_of_app in Hin as [?|Hin]; [done|].
    apply (StronglySorted_app_1_elem_of _ _ _ _ _ Hsorted);
      by apply list_elem_of_fmap_2.
Qed.

(** [three_points] under the initial thresholds, with a top-N of two. *)
Lemma topSignificant_length_witness :
  let st := set_topN (A:=Qc) 2 (redraw (set_data three_points initial_state)) in
  length (topSignificant st)
  = (Z.to_nat (topN st)
     `min` length (filter (λ d, _category d ≠ Some not_sig) (data st)))%nat.
Proof.
  apply (topSignificant_length
           (set_topN (A:=Qc) 2 (redraw (set_data three_points initial_state)))).
  vm_compute. discriminate.
Defined.

(** ** What every handler keeps *)

Section handler_invariants.
Context `{Number A} `{!MathAbs A} {SL : StringLib}.

(* A handler returns the state untouched or ends in [redraw], having
   left the dataset alone before. *)
Lemma handle_shape (e : event A) (st : State A) :
  handle e st = st
  ∨ ∃ st1, handle e st = redraw st1 ∧ data st1 = data st
      ∧ (topN st1 = topN st ∨ 0 ≤ topN st1 ≤ 50).
Proof.
  destruct e as [d|p|v|v|parsed|checked|value| |xi yi button pt boxStart]; simpl.
  - unfold point_click. case_decide; [by left|]. right.
    eexists. split; [done|]. case_decide; simpl; auto.
  - unfold overlay_click. destruct p; [by left|]. right.
    eexists. split; [done|]. simpl. auto.
  - right. eexists. split; [done|]. simpl. auto.
  - right. eexists. split; [done|]. simpl. auto.
  - right. eexists. split; [done|]. simpl. split; [done|]. right. lia.
  - right. eexists. split; [done|]. simpl. auto.
  - unfold doSearch. right. case_decide.
    + eexists. split; [done|]. simpl. auto.
    + destruct (List.find _ _); eexists; (split; [done|]); simpl; auto.
  - right. eexists. split; [done|]. simpl. auto.
  - unfold endBox. destruct boxStart as [start|]; [|by left].
    case_decide; [by left|]. case_match; [|by left]. right.
    eexists. split; [done|]. simpl. auto.
Qed.

(** No handler leaves a stale category behind, moves the top-N out of
    its range of 0 to 50, or alters, adds or removes a point of the
    dataset: in a state whose categories agree with its thresholds, every
    event leads to such a state again, with the same points. *)
Theorem handle_invariant (e : event A) (st : State A) :
  categories_fresh st → 0 ≤ topN st ≤ 50 →
  categories_fresh (handle e st)
  ∧ 0 ≤ topN (handle e st) ≤ 50
  ∧ Forall2 same_point (data (handle e st)) (data st).
Proof.
  intros Hfresh Htop.
  destruct (handle_shape e st) as [->|(st1 & -> & Hdata & Htop1)].
  - split_and!; [done|lia|lia|].
    apply Forall_Forall2_diag, Forall_true. intros d. by repeat split.
  - destruct (redraw_fresh_aux st1) as (Hf & Hsame & _).
    rewrite redraw_topN. rewrite Hdata in Hsame.
    split_and!; [done|lia|lia|done].
Qed.

End handler_invariants.

(** [three_points] drawn under the initial thresholds, then a change of
    the FDR threshold to 0.1: the first point, with an adjusted value of
    0.06, becomes significant, and the three points are otherwise as they
    were. *)
Lemma handle_invariant_witness :
  let st := redraw (set_data three_points initial_state) in
  let st' := handle (SL:=basic_latin) (UpdateFdr (num_lit (1 # 10))) st in
  _category <$> data st = [Some not_sig; Some sig_down; Some not_sig]
  ∧ _category <$> data st' = [Some sig_up; Some sig_down; Some not_sig]
  ∧ categories_fresh st'
  ∧ 0 ≤ topN st' ≤ 50
  ∧ Forall2 same_point (data st') (data st).
Proof.
  cbv zeta. split; [vm_compute; reflexivity|]. split; [vm_compute; reflexivity|].
  apply (handle_invariant (A:=Qc) (SL:=basic_latin) (UpdateFdr (num_lit (1 # 10)))
           (redraw (set_data three_points initial_state))).
  - intros d Hd. simpl in Hd.
    apply elem_of_cons in Hd as [->|Hd]; [vm_compute; reflexivity|].
    apply elem_of_cons in Hd as [->|Hd]; [vm_compute; reflexivity|].
    apply elem_of_cons in Hd as [->|Hd]; [vm_compute; reflexivity|].
    by apply not_elem_of_nil in Hd.
  - simpl. lia.
Defined.

(** Two clicks on the second point of [zoomed_state]. *)
Lemma point_click_twice_witness :
  let d := point (A:=Qc) (js "BRCA1_2") (num_of_Z (-1)) (num_lit (4 # 10)) (num_lit (4 # 10)) in
  (id d ∈ pinned (point_click d zoomed_state) ↔ id d ∉ pinned zoomed_state)
  ∧ (∀ i, i ≠ id d →
       i ∈ pinned (point_click d zoomed_state) ↔ i ∈ pinned zoomed_state)
  ∧ point_click d (point_click d zoomed_state) = redraw zoomed_state.
Proof.
  apply (point_click_twice (A:=Qc)
           (point (js "BRCA1_2") (num_of_Z (-1)) (num_lit (4 # 10)) (num_lit (4 # 10)))
           zoomed_state).
  reflexivity.
Defined.

(** ** Search and zoom *)

Lemma trimStart_ws_app (l s : jsstring) :
  Forall (λ c, is_white_space c = true) l → trimStart (l ++ s) = trimStart s.
Proof. induction 1 as [|c l Hc _ IH]; [done|]. simpl. by rewrite Hc. Qed.

Lemma trimEnd_ws (r : jsstring) :
  Forall (λ c, is_white_space c = true) r → trimEnd r = [].
Proof. induction 1 as [|c r Hc _ IH]; [done|]. simpl. by rewrite IH, Hc. Qed.

Lemma trimEnd_app_ws (s r : jsstring) :
  Forall (λ c, is_white_space c = true) r → trimEnd (s ++ r) = trimEnd s.
Proof.
  intros Hr. induction s as [|c s IH]; simpl.
  - by apply trimEnd_ws.
  - by rewrite IH.
Qed.

Lemma trim_ws_app (l v r : jsstring) :
  Forall (λ c, is_white_space c = true) l →
  Forall (λ c, is_white_space c = true) r →
  trim (l ++ v ++ r) = trim v.
Proof.
  intros Hl Hr. unfold trim. rewrite trimStart_ws_app by done.
  induction v as [|c v IH].
  - simpl. by rewrite <-(app_nil_r r), trimStart_ws_app.
  - cbn [app trimStart]. destruct (is_white_space c); [done|].
    change (c :: v ++ r) with ((c :: v) ++ r). by rewrite trimEnd_app_ws.
Qed.

Lemma trimEnd_idemp (s : jsstring) : trimEnd (trimEnd s) = trimEnd s.
Proof.
  induction s as [|c s IH]; [done|].
  simpl. destruct (trimEnd s) as [|c' t] eqn:Ht.
  - destruct (is_white_space c) eqn:Hc; [done|]. simpl. by rewrite Hc.
  - change (trimEnd (c :: c' :: t)) with
      (match trimEnd (c' :: t) with
       | [] => if is_white_space c then [] else [c]
       | t' => c :: t'
       end).
    by rewrite IH.
Qed.

Lemma trimStart_head (s : jsstring) :
  trimStart s = []
  ∨ ∃ c t, trimStart s = c :: t ∧ is_white_space c = false.
Proof.
  induction s as [|c s IH]; [by left|].
  simpl. destruct (is_white_space c) eqn:Hc; [done|]. right. eauto.
Qed.

Lemma trim_idemp (s : jsstring) : trim (trim s) = trim s.
Proof.
  unfold trim.
  assert (Hstart : trimStart (trimEnd (trimStart s)) = trimEnd (trimStart s)).
  { destruct (trimStart_head s) as [->|(c & t & -> & Hc)]; [done|].
    simpl. destruct (trimEnd t); rewrite ?Hc; simpl; by rewrite Hc. }
  by rewrite Hstart, trimEnd_idemp.
Qed.

(* Lower case does not make or unmake white space: the letters [A]-[Z]
   and [a]-[z] are none. *)
Lemma is_white_space_ascii_lower (c : N) :
  is_white_space (ascii_lower c) = is_white_space c.
Proof.
  unfold ascii_lower.
  destruct (65 <=? c)%N eqn:Hlo; [|done].
  destruct (c <=? 90)%N eqn:Hhi; [|done]. simpl.
  apply N.leb_le in Hlo, Hhi.
  assert (∃ k, (k < 26)%nat ∧ c = N.of_nat (65 + k)) as (k & Hk & ->).
  { exists (N.to_nat c - 65)%nat. lia. }
  do 26 (destruct k as [|k]; [reflexivity|]). lia.
Qed.

Lemma ascii_lower_trimStart (s : jsstring) :
  ascii_lower <$> trimStart s = trimStart (ascii_lower <$> s).
Proof.
  induction s as [|c s IH]; [done|].
  csimpl. rewrite is_white_space_ascii_lower. by case_match.
Qed.

Lemma ascii_lower_trimEnd (s : jsstring) :
  ascii_lower <$> trimEnd s = trimEnd (ascii_lower <$> s).
Proof.
  induction s as [|c s IH]; [done|].
  csimpl. rewrite <-IH, is_white_space_ascii_lower.
  destruct (trimEnd s); csimpl; [by case_match|done].
Qed.

Lemma ascii_lower_trim (s : jsstring) :
  ascii_lower <$> trim s = trim (ascii_lower <$> s).
Proof. unfold trim. by rewrite ascii_lower_trimEnd, ascii_lower_trimStart. Qed.

Lemma trimStart_Forall (P : N → Prop) (s : jsstring) :
  Forall P s → Forall P (trimStart s).
Proof.
  induction 1 as [|c s Hc Hs IH]; [done|]. simpl.
  case_match; [done|by constructor].
Qed.

Lemma trimEnd_Forall (P : N → Prop) (s : jsstring) :
  Forall P s → Forall P (trimEnd s).
Proof.
  induction 1 as [|c s Hc Hs IH]; [done|]. simpl.
  destruct (trimEnd s).
  - case_match; [apply Forall_nil_2|by apply Forall_singleton].
  - by apply Forall_cons_2.
Qed.

Lemma trim_Forall (P : N → Prop) (s : jsstring) : Forall P s → Forall P (trim s).
Proof. intros. by apply trimEnd_Forall, trimStart_Forall. Qed.

Lemma find_Some_first {B : Type} (f : B → bool) (l : list B) (x : B) :
  List.find f l = Some x →
  f x = true ∧ ∃ l1 l2, l = l1 ++ x :: l2 ∧ ∀ y, y ∈ l1 → f y = false.
Proof.
  induction l as [|y l IH]; [done|].
  simpl. destruct (f y) eqn:Hy.
  - intros [= ->]. split; [done|]. exists [], l. split; [done|].
    intros z Hz. by apply not_elem_of_nil in Hz.
  - intros (Hx & l1 & l2 & -> & Hl1)%IH. split; [done|].
    exists (y :: l1), l2. split; [done|].
    intros z [->|Hz]%elem_of_cons; auto.
Qed.

Section search_facts.
Context `{Number A} {SL : StringLib}.

(** The search ignores the white space around the query, whatever
    white space [trim] knows, and the case of ASCII letters: an input with
    white space put before and after it, an input and its trimmed form,
    and two ASCII inputs that differ in the case of their letters only,
    lead to the same state. *)
Theorem doSearch_case_and_space (l v r w : jsstring) (st : State A) :
  Forall (λ c, is_white_space c = true) l →
  Forall (λ c, is_white_space c = true) r →
  doSearch (Some (l ++ v ++ r)) st = doSearch (Some v) st
  ∧ doSearch (Some (trim v)) st = doSearch (Some v) st
  ∧ (Forall (λ c, is_ascii c = true) v → Forall (λ c, is_ascii c = true) w →
     ascii_lower <$> v = ascii_lower <$> w →
     doSearch (Some v) st = doSearch (Some w) st).
Proof.
  intros Hl Hr.
  assert (Hq : ∀ u u' : jsstring,
    toLowerCase (trim u) = toLowerCase (trim u') →
    doSearch (Some u) st = doSearch (Some u') st).
  { intros u u' Heq. unfold doSearch. simpl. by rewrite Heq. }
  split_and!.
  - apply Hq. by rewrite trim_ws_app.
  - apply Hq. by rewrite trim_idemp.
  - intros Hv Hw Heq. apply Hq.
    rewrite !toLowerCase_ascii by (by apply trim_Forall).
    by rewrite !ascii_lower_trim, Heq.
Qed.

(** Searching and resetting the zoom touch nothing but the search
    highlight and the zoom window, and a reset after any search leaves
    neither of the two. *)
Theorem reset_zoom_after_search (value : option jsstring) (st : State A) :
  pinned (doSearch value st) = pinned st
  ∧ selected (doSearch value st) = selected st
  ∧ fcThreshold (doSearch value st) = fcThreshold st
  ∧ fdrThreshold (doSearch value st) = fdrThreshold st
  ∧ topN (doSearch value st) = topN st
  ∧ pinned (reset_zoom st) = pinned st
  ∧ selected (reset_zoom st) = selected st
  ∧ fcThreshold (reset_zoom st) = fcThreshold st
  ∧ fdrThreshold (reset_zoom st) = fdrThreshold st
  ∧ topN (reset_zoom st) = topN st
  ∧ zoomDomain (reset_zoom (doSearch value st)) = None
  ∧ searchHighlightId (reset_zoom (doSearch value st)) = None.
Proof.
  unfold reset_zoom.
  rewrite !redraw_pinned, !redraw_selected, !redraw_fcThreshold,
    !redraw_fdrThreshold, !redraw_topN, redraw_zoomDomain,
    redraw_searchHighlightId.
  unfold doSearch. case_decide; [|destruct (List.find _ _)];
    rewrite !redraw_pinned, !redraw_selected, !redraw_fcThreshold,
      !redraw_fdrThreshold, !redraw_topN; done.
Qed.

End search_facts.

(** The query [tp53] with a tab and a no-break space before it and a
    line feed after it, and the queries [Tp53] and [tP53], on
    [zoomed_state]. *)
Lemma doSearch_case_and_space_witness :
  let doSearch := doSearch (SL:=basic_latin) in
  doSearch (Some ([9; 0xA0]%N ++ js "tp53" ++ [10]%N)) zoomed_state
  = doSearch (Some (js "tp53")) zoomed_state
  ∧ doSearch (Some (trim (js "tp53"))) zoomed_state
    = doSearch (Some (js "tp53")) zoomed_state
  ∧ doSearch (Some (js "Tp53")) zoomed_state
    = doSearch (Some (js "tP53")) zoomed_state.
Proof.
  cbv zeta.
  destruct (doSearch_case_and_space (SL:=basic_latin) [9; 0xA0]%N (js "tp53")
              [10]%N (js "tP53") zoomed_state) as (Hspace & Htrim & _).
  { by repeat constructor. }
  { by repeat constructor. }
  split; [exact Hspace|]. split; [exact Htrim|].
  apply (doSearch_case_and_space (SL:=basic_latin) [] (js "Tp53") [] (js "tP53")
           zoomed_state); [done|done|by repeat constructor..|reflexivity].
Defined.

(** In exact arithmetic: the point a search finds is the first one in
    dataset order whose lower-case id includes the query; it becomes the
    search highlight, and the zoom window set around it contains it on
    the [log2FC] axis, never reaches below zero, ends above its
    [negLog10P] and contains it whenever its [negLog10P] is not negative.
    These are statements of order, which the rounding of the four
    corners keeps. *)
Theorem doSearch_zoom_window {SL : StringLib} (value : option jsstring)
    (st : State Qc) (found : datum Qc) :
  search_query value ≠ [] →
  List.find (λ d, includes (toLowerCase (id d)) (search_query value)) (data st)
    = Some found →
  (∃ before after, data st = before ++ found :: after
     ∧ ∀ d, d ∈ before → includes (toLowerCase (id d)) (search_query value) = false)
  ∧ searchHighlightId (doSearch value st) = Some (id found)
  ∧ ∃ xlo xhi ylo yhi,
      zoomDomain (doSearch value st)
      = Some {| zoom_x := (xlo, xhi); zoom_y := (ylo, yhi) |}
      ∧ (xlo ≤ log2FC found ≤ xhi)%Qc
      ∧ (0 ≤ ylo)%Qc ∧ (negLog10P found ≤ yhi)%Qc
      ∧ ((0 ≤ negLog10P found)%Qc → (ylo ≤ negLog10P found)%Qc).
Proof.
  intros Hq Hfind. split.
  { by apply find_Some_first in Hfind as [_ ?]. }
  split; [by apply doSearch_found|].
  unfold doSearch. fold (search_query value).
  rewrite decide_False by done. rewrite Hfind, redraw_zoomDomain. simpl.
  do 4 eexists. split; [done|].
  set (x := log2FC found). set (y := negLog10P found).
  set (pad := Q2Qc (12 # 10)).
  assert (Hpad : (0 < pad)%Qc) by done.
  rewrite !Z2Qc_inj_0.
  assert (Hlo : ∀ u : Qc, (u - pad ≤ u)%Qc).
  { intros u. apply Qclt_le_weak, Qclt_minus_iff.
    by replace (u + - (u - pad))%Qc with pad by ring. }
  assert (Hhi : ∀ u : Qc, (u ≤ u + pad)%Qc).
  { intros u. apply Qclt_le_weak, Qclt_minus_iff.
    by replace (u + pad + - u)%Qc with pad by ring. }
  split_and!; [apply Hlo|apply Hhi| |apply Hhi|].
  - unfold ExactNumber.max. case_decide; [by apply Qclt_le_weak|done].
  - intros Hy.
    unfold ExactNumber.max. case_decide; [apply Hlo|done].
Qed.

(** The search for [tp53] in [zoomed_state]. *)
Lemma doSearch_zoom_window_witness :
  searchHighlightId (doSearch (SL:=basic_latin) (Some (js "tp53")) zoomed_state)
  = Some (js "TP53_1")
  ∧ ∃ xlo xhi ylo yhi,
      zoomDomain (doSearch (SL:=basic_latin) (Some (js "tp53")) zoomed_state)
      = Some {| zoom_x := (xlo, xhi); zoom_y := (ylo, yhi) |}
      ∧ (xlo ≤ Q2Qc 2 ≤ xhi)%Qc.
Proof.
  destruct (doSearch_zoom_window (SL:=basic_latin) (Some (js "tp53"))
              zoomed_state
              (point (js "TP53_1") (num_of_Z 2) (num_lit (1 # 100)) (num_lit (2 # 100))))
    as (_ & Hhl & xlo & xhi & ylo & yhi & Hzoom & Hx & _).
  - vm_compute. discriminate.
  - reflexivity.
  - split; [exact Hhl|].
    exists xlo, xhi, ylo, yhi. split; [done|]. exact Hx.
Defined.

(** The same search in binary64, on a point with a [log2FC] of 2: the
    corners are the rounded [2 - 1.2] and [2 + 1.2], which are not 2.4
    apart, and the window contains the point. *)
Lemma doSearch_zoom_window_binary64 :
  let st : State float :=
    set_data [point (js "TP53_1") 2%float 0.01%float 0.02%float] initial_state in
  zoomDomain (doSearch (SL:=basic_latin) (Some (js "tp53")) st)
  = Some {| zoom_x := (0.80000000000000004, 3.2000000000000002)%float;
            zoom_y := (0, 1.2)%float |}
  ∧ (3.2000000000000002 - 0.80000000000000004)%float = 2.4000000000000004%float
  ∧ nle 0.80000000000000004%float 2%float = true
  ∧ nle 2%float 3.2000000000000002%float = true.
Proof. cbv zeta. split_and!; vm_compute; reflexivity. Qed.

(** ** Synthetic data *)

Lemma generated_ids_NoDup : NoDup generated_ids.
Proof. apply (bool_decide_unpack _). vm_compute. exact I. Qed.

Section generate_facts.
Context `{Number A} `{!MathAbs A} `{!MathLib A} {SL : StringLib}.

Lemma generate_loop_ids (fuel i : nat) (s : Z) (data : list (pushed A)) :
  pushed_id <$> generate_loop fuel i s data
  = (pushed_id <$> data)
    ++ ((λ i, default (js "undefined") (GENE_SYMBOLS !! (i `mod` length GENE_SYMBOLS)%nat)
              ++ js "_" ++ js (pretty (i + 1)%nat)) <$> seq i fuel).
Proof.
  revert i s data. induction fuel as [|fuel IH]; intros i s data.
  - simpl. by rewrite app_nil_r.
  - cbn [generate_loop]. destruct (rng_call s) as [r1 s1].
    destruct (rng_call s1) as [r2 s2].
    rewrite IH, fmap_app, <-app_assoc. done.
Qed.

Lemma attach_Some (out : list (option A)) (i : nat) (d : pushed A) (d' : datum A) :
  attach out i d = Some d' →
  out !! i = Some (Some (fdr d'))
  ∧ id d' = pushed_id d ∧ geneSymbol d' = pushed_geneSymbol d
  ∧ log2FC d' = pushed_log2FC d ∧ pval d' = pushed_pval d
  ∧ negLog10P d' = nneg (Math_log10 (pval d')) ∧ _category d' = None.
Proof.
  unfold attach. destruct (out !! i) as [[q|]|]; simpl; [|done..].
  intros [= <-]. done.
Qed.

(* The points returned are the points pushed, each with the adjusted value
   of its slot attached. *)
Lemma generateData_attach (seed : Z) :
  ∃ data raw out,
    generateData seed = Some data
    ∧ pushed_id <$> raw = generated_ids
    ∧ raw = generate_loop N_POINTS 0 seed []
    ∧ benjaminiHochberg (pushed_pval <$> raw) = Some out
    ∧ length out = length raw
    ∧ length data = length raw
    ∧ ∀ j d', data !! j = Some d' →
        ∃ d, raw !! j = Some d ∧ attach out j d = Some d'.
Proof.
  unfold generateData.
  set (raw := generate_loop N_POINTS 0 seed []).
  assert (Hraw : raw = generate_loop N_POINTS 0 seed []) by done.
  assert (Hids : pushed_id <$> raw = generated_ids) by apply generate_loop_ids.
  clearbody raw. cbv zeta.
  destruct (benjaminiHochberg_raw (pushed_pval <$> raw))
    as (out & Hout & Hlout & _ & Hfilled).
  rewrite length_fmap in Hlout, Hfilled. rewrite Hout. simpl.
  assert (Hsome : is_Some (mapM (λ '(i, d), attach out i d) (imap pair raw))).
  { apply mapM_is_Some, Forall_lookup. intros j [i d] Hj.
    rewrite list_lookup_imap in Hj.
    destruct (raw !! j) as [dj|] eqn:Hdj; [|done]. injection Hj as <- <-.
    destruct (Hfilled j) as [v Hv]; [by eapply lookup_lt_Some|].
    simpl. unfold attach. rewrite Hv. simpl. eauto. }
  destruct Hsome as [data Hdata]. exists data, raw, out.
  split_and!; [done..| |].
  - apply mapM_Some, Forall2_length in Hdata. by rewrite length_imap in Hdata.
  - intros j d' Hd'. apply mapM_Some in Hdata.
    destruct (Forall2_lookup_r _ _ _ _ _ Hdata Hd') as ([i d] & Hj & Hatt).
    rewrite list_lookup_imap in Hj.
    destruct (raw !! j) as [dj|] eqn:Hdj; [|done]. injection Hj as <- <-.
    eauto.
Qed.

Lemma generateData_shape_aux (seed : Z) :
  ∃ data, generateData seed = Some data
    ∧ length data = 1200%nat
    ∧ id <$> data = generated_ids
    ∧ NoDup (id <$> data)
    ∧ benjaminiHochberg (pval <$> data) = Some (Some ∘ fdr <$> data)
    ∧ Forall (λ d, negLog10P d = nneg (Math_log10 (pval d))
                   ∧ _category d = None) data.
Proof.
  destruct (generateData_attach seed)
    as (data & raw & out & Hgen & Hids & _ & Hout & Hlout & Hlen' & Hat).
  assert (Hlen : length raw = 1200%nat).
  { rewrite <-(length_fmap pushed_id), Hids. unfold generated_ids.
    by rewrite length_fmap, length_seq. }
  exists data. split; [done|].
  assert (Hidd : id <$> data = generated_ids).
  { rewrite <-Hids. apply list_eq. intros j. rewrite !list_lookup_fmap.
    destruct (data !! j) as [d'|] eqn:Hd'.
    - destruct (Hat j d' Hd') as (d & -> & Hatt%attach_Some). simpl.
      f_equal. apply Hatt.
    - apply lookup_ge_None in Hd'. rewrite lookup_ge_None_2 by lia. done. }
  split_and!.
  - lia.
  - done.
  - rewrite Hidd. apply generated_ids_NoDup.
  - assert (pval <$> data = pushed_pval <$> raw) as ->.
    { apply list_eq. intros j. rewrite !list_lookup_fmap.
      destruct (data !! j) as [d'|] eqn:Hd'.
      - destruct (Hat j d' Hd') as (d & -> & Hatt%attach_Some). simpl.
        f_equal. apply Hatt.
      - apply lookup_ge_None in Hd'. rewrite lookup_ge_None_2 by lia. done. }
    rewrite Hout. f_equal. apply list_eq. intros j. rewrite list_lookup_fmap.
    destruct (data !! j) as [d'|] eqn:Hd'.
    + destruct (Hat j d' Hd') as (d & _ & Hatt%attach_Some). simpl.
      apply Hatt.
    + apply lookup_ge_None in Hd'. simpl. apply lookup_ge_None. lia.
  - apply Forall_lookup. intros j d' Hd'.
    destruct (Hat j d' Hd') as (d & _ & Hatt%attach_Some). split; apply Hatt.
Qed.

(** Whatever the seed, [generateData] returns 1200 points without
    throwing; their ids are [generated_ids], the same for every seed and
    pairwise different; the [fdr] values attached are the output of the
    BH engine on the p-values of the very points returned, slot by slot;
    and every [negLog10P] is minus the decimal logarithm of the p-value
    beside it. *)
Theorem generateData_shape (seed : Z) :
  ∃ data, generateData seed = Some data
    ∧ length data = 1200%nat
    ∧ id <$> data = generated_ids
    ∧ NoDup (id <$> data)
    ∧ benjaminiHochberg (pval <$> data) = Some (Some ∘ fdr <$> data)
    ∧ Forall (λ d, negLog10P d = nneg (Math_log10 (pval d))
                   ∧ _category d = None) data.
Proof. exact (generateData_shape_aux seed). Qed.

Lemma same_point_ids (l1 l2 : list (datum A)) :
  Forall2 same_point l1 l2 → id <$> l1 = id <$> l2.
Proof.
  induction 1 as [|d1 d2 l1 l2 Hpt _ IH]; [done|].
  csimpl. f_equal; [apply Hpt|done].
Qed.

Lemma generated_ids_head : head generated_ids = Some (js "TP53_1").
Proof. vm_compute. reflexivity. Qed.

Lemma regenerate_resets_aux (now : Z) (st : State A) :
  ∃ st', regenerate now st = Some st'
    ∧ pinned st' = ∅ ∧ selected st' = ∅
    ∧ searchHighlightId st' = None ∧ zoomDomain st' = None
    ∧ fcThreshold st' = fcThreshold st ∧ fdrThreshold st' = fdrThreshold st
    ∧ topN st' = topN st ∧ showLabels st' = showLabels st
    ∧ length (data st') = 1200%nat
    ∧ id <$> data st' = generated_ids
    ∧ categories_fresh st'
    ∧ is_Some (pvalAtFdr st').
Proof.
  destruct (generateData_shape_aux now) as (pts & Hgen & Hlen & Hids & _).
  unfold regenerate. rewrite Hgen. simpl. eexists. split; [done|].
  set (st1 := set_zoomDomain None _).
  assert (Hdata : data st1 = pts) by done.
  destruct (redraw_fresh_aux st1) as (Hfresh & Hsame & Hcut).
  rewrite redraw_pinned, redraw_selected, redraw_searchHighlightId,
    redraw_zoomDomain, redraw_fcThreshold, redraw_fdrThreshold, redraw_topN,
    redraw_showLabels.
  split_and!; [reflexivity..| | |exact Hfresh|].
  - apply Forall2_length in Hsame. rewrite Hsame, Hdata. exact Hlen.
  - rewrite <-Hids, <-Hdata. exact (same_point_ids _ _ Hsame).
  - apply Hcut. rewrite Hdata. intros ->. discriminate Hlen.
Qed.

(** The regenerate button never fails: it installs a fresh dataset of
    1200 points, empties pinned set and selection, clears search
    highlight and zoom window, keeps thresholds, top-N and the label
    switch, and leaves the categories and the cutoff up to date. *)
Theorem regenerate_resets (now : Z) (st : State A) :
  ∃ st', regenerate now st = Some st'
    ∧ pinned st' = ∅ ∧ selected st' = ∅
    ∧ searchHighlightId st' = None ∧ zoomDomain st' = None
    ∧ fcThreshold st' = fcThreshold st ∧ fdrThreshold st' = fdrThreshold st
    ∧ topN st' = topN st ∧ showLabels st' = showLabels st
    ∧ length (data st') = 1200%nat
    ∧ id <$> data st' = generated_ids
    ∧ categories_fresh st'
    ∧ is_Some (pvalAtFdr st').
Proof. exact (regenerate_resets_aux now st). Qed.

(** After any regeneration, a search for [tp53] highlights the first
    point, whose id is [TP53_1], and zooms in on it. *)
Theorem regenerate_then_search (now : Z) (st : State A) :
  ∃ st', regenerate now st = Some st'
    ∧ searchHighlightId (doSearch (Some (js "tp53")) st') = Some (js "TP53_1")
    ∧ is_Some (zoomDomain (doSearch (Some (js "tp53")) st')).
Proof.
  destruct (regenerate_resets_aux now st) as (st' & Hreg & Hrest).
  destruct Hrest as (_ & _ & _ & _ & _ & _ & _ & _ & _ & Hids & _).
  exists st'. split; [exact Hreg|]. clear Hreg.
  pose proof generated_ids_head as Hhead. rewrite <-Hids in Hhead. clear Hids.
  destruct (data st') as [|d0 rest] eqn:Hdata; [discriminate Hhead|].
  injection Hhead as Hid0.
  assert (Hq : search_query (Some (js "tp53")) = js "tp53").
  { unfold search_query. rewrite toLowerCase_ascii; [reflexivity|].
    by repeat constructor. }
  destruct (doSearch_found (Some (js "tp53")) st' d0) as [Hhl Hzoom].
  - rewrite Hq. discriminate.
  - rewrite Hq, Hdata. simpl. rewrite Hid0.
    rewrite toLowerCase_ascii by (by repeat constructor). reflexivity.
  - rewrite <-Hid0. split; assumption.
Qed.

End generate_facts.

(** ** Exact arithmetic: ranges *)

(* Order goals over [Qc], read over [Q] and left to [lra]. *)
Ltac qc_lra :=
  unfold Qcle, Qclt in *;
  cbn [this Qcmult Qcminus Qcplus Qcopp Q2Qc Qc_of_Z] in *;
  rewrite ?Qred_correct in *; unfold inject_Z in *; lra.

Lemma exact_max_l (a b : Qc) : (a ≤ ExactNumber.max a b)%Qc.
Proof. unfold ExactNumber.max. case_decide; qc_lra. Qed.

Lemma exact_max_r (a b : Qc) : (b ≤ ExactNumber.max a b)%Qc.
Proof. unfold ExactNumber.max. case_decide; [qc_lra|]. by apply Qcnot_lt_le. Qed.

Lemma exact_min_l (a b : Qc) : (ExactNumber.min a b ≤ a)%Qc.
Proof. unfold ExactNumber.min. case_decide; qc_lra. Qed.

Lemma exact_min_r (a b : Qc) : (ExactNumber.min a b ≤ b)%Qc.
Proof. unfold ExactNumber.min. case_decide; [qc_lra|]. by apply Qcnot_lt_le. Qed.

Lemma num_1e_20_pos : (0 < num_1e_20 (A:=Qc))%Qc.
Proof. apply (bool_decide_unpack _). vm_compute. exact I. Qed.

Section generate_exact.
Context `{!MathLib Qc}.

Lemma generate_loop_range (fuel i : nat) (s : Z) (data : list (pushed Qc)) :
  Forall pushed_in_range data →
  Forall pushed_in_range (generate_loop fuel i s data).
Proof.
  revert i s data. induction fuel as [|fuel IH]; intros i s data Hdata;
    [exact Hdata|].
  cbn [generate_loop].
  pose proof (rng_call_bounds s) as [Hr1 _].
  destruct (rng_call s) as [r1 s1]. destruct (rng_call s1) as [r2 s2].
  apply IH, Forall_app. split; [done|]. apply Forall_singleton.
  split; [apply exact_max_l|]. simpl in *. split; qc_lra.
Qed.

(** In exact arithmetic, whatever [Math.exp], [Math.log10] and
    [Math.SQRT2] are and whatever the seed: every generated p-value is
    at least [1e-20], hence positive, and every [log2FC] lies between -3
    and 3. *)
Theorem generateData_ranges (seed : Z) :
  ∃ data, generateData (A:=Qc) seed = Some data
    ∧ Forall (λ d, (0 < pval d)%Qc ∧ (num_1e_20 ≤ pval d)%Qc
                   ∧ (Q2Qc (-3) ≤ log2FC d ≤ Q2Qc 3)%Qc) data.
Proof.
  destruct (generateData_attach (A:=Qc) seed)
    as (data & raw & out & Hgen & _ & Hraw & _ & _ & _ & Hat).
  exists data. split; [exact Hgen|].
  assert (Hrange : Forall pushed_in_range raw).
  { rewrite Hraw. by apply generate_loop_range. }
  clear Hraw Hgen. apply Forall_lookup. intros j d' Hd'.
  destruct (Hat j d' Hd') as (d & Hd & Hatt%attach_Some).
  destruct Hatt as (_ & _ & _ & -> & -> & _).
  destruct (proj1 (Forall_lookup _ _) Hrange j d Hd) as [Hp Hfc].
  split; [|by split].
  eapply Qclt_le_trans; [apply num_1e_20_pos|exact Hp].
Qed.

End generate_exact.

(** ** Adjusted values *)

(** For every input, in any arithmetic: the engine does not throw, its
    output has the length of the input with no slot left empty, and the
    entry sorted to the 0-based position [k] gets
    [min(1, p * n / (k + 1))] at the index it came from.  No value is
    revised afterwards. *)
Theorem benjaminiHochberg_fills_slots `{Number A} (pvals : list A) :
  ∃ out, benjaminiHochberg pvals = Some out
    ∧ length out = length pvals
    ∧ (∀ k e, bh_indexed pvals !! k = Some e →
         pvals !! ip_i e = Some (ip_p e)
         ∧ out !! ip_i e = Some (Some (bh_value (length pvals) k (ip_p e))))
    ∧ (∀ i, (i < length pvals)%nat → ∃ v, out !! i = Some (Some v)).
Proof. exact (benjaminiHochberg_raw pvals). Qed.

(* Every input slot receives the value of some rank. *)
Lemma benjaminiHochberg_slot `{Number A} (pvals : list A) :
  ∃ out, benjaminiHochberg pvals = Some out
    ∧ length out = length pvals
    ∧ ∀ i p, pvals !! i = Some p →
        ∃ k, (k < length pvals)%nat
          ∧ out !! i = Some (Some (bh_value (length pvals) k p)).
Proof.
  destruct (benjaminiHochberg_raw pvals) as (out & Hout & Hlen & Hrank & _).
  exists out. split_and!; [done..|]. intros i p Hp.
  assert (Hidx : ip_i <$> bh_indexed pvals ≡ₚ seq 0 (length pvals)).
  { by rewrite bh_indexed_perm, imap_indexed_indices. }
  assert (i ∈ ip_i <$> bh_indexed pvals) as Hin.
  { rewrite Hidx. apply elem_of_seq. apply lookup_lt_Some in Hp. lia. }
  apply list_elem_of_fmap in Hin as (e & -> & He).
  apply list_elem_of_lookup in He as [k Hk].
  destruct (Hrank k e Hk) as [Hpe Hv].
  exists k. split.
  - apply lookup_lt_Some in Hk.
    assert (length (bh_indexed pvals) = length pvals) as <-; [|done].
    unfold bh_indexed. by rewrite length_sort, length_imap.
  - rewrite Hv. by replace p with (ip_p e) by congruence.
Qed.

(* In exact arithmetic the value of a rank is at most 1 and, the ratio
   [n / (k + 1)] being at least 1, not below [min(1, p)]. *)
Lemma bh_value_bounds (n k : nat) (p : Qc) :
  (k < n)%nat →
  (bh_value n k p ≤ 1)%Qc
  ∧ ((0 ≤ p)%Qc → (ExactNumber.min 1 p ≤ bh_value n k p)%Qc).
Proof.
  intros Hk. unfold bh_value. simpl. rewrite Z2Qc_inj_1.
  set (c := Qc_of_Z (Z.of_nat k + 1)). set (m := Qc_of_Z (Z.of_nat n)).
  set (q := (p * m / c)%Qc).
  split; [apply exact_min_l|]. intros Hp.
  assert (Hc : (0 < c)%Qc).
  { assert (0 < Z.of_nat k + 1) as Hpos by lia.
    apply Z2Qc_inj_lt in Hpos. by rewrite Z2Qc_inj_0 in Hpos. }
  assert (Hcm : (c ≤ m)%Qc).
  { apply (proj1 (Z2Qc_inj_le (Z.of_nat k + 1) (Z.of_nat n))). lia. }
  assert (Hq : (q * c = p * m)%Qc).
  { unfold q. rewrite Qcmult_comm. apply Qcmult_div_r.
    intros Heq. rewrite Heq in Hc. by apply Qclt_not_eq in Hc. }
  assert (Hpq : (p ≤ q)%Qc).
  { apply (Qcmult_lt_0_le_reg_r _ _ c Hc). rewrite Hq.
    by apply Qcmult_le_mono_nonneg_l. }
  unfold ExactNumber.min. repeat case_decide; try done.
  - by apply Qclt_le_weak.
  - eapply Qcle_trans; [|exact Hpq]. by apply Qcnot_lt_le.
Qed.

(** The range of the adjusted values, in exact arithmetic: every
    adjusted value is at most 1, the adjusted value of a non-negative
    p-value is not negative, and a p-value of 1 or more is adjusted to 1.
    These are statements of order, which the rounding of the product and
    of the quotient keeps. *)
Theorem benjaminiHochberg_bounds (pvals : list Qc) :
  ∃ out, benjaminiHochberg pvals = Some out
    ∧ length out = length pvals
    ∧ ∀ i p, pvals !! i = Some p →
        ∃ q, out !! i = Some (Some q)
          ∧ (q ≤ 1)%Qc
          ∧ ((0 ≤ p)%Qc → (0 ≤ q)%Qc)
          ∧ ((1 ≤ p)%Qc → q = 1%Qc).
Proof.
  destruct (benjaminiHochberg_slot pvals) as (out & Hout & Hlen & Hslot).
  exists out. split_and!; [done..|]. intros i p Hp.
  destruct (Hslot i p Hp) as (k & Hk & Hq).
  eexists. split; [done|].
  destruct (bh_value_bounds (length pvals) k p Hk) as [Hle Hge].
  split_and!; [done| |].
  - intros H0. eapply Qcle_trans; [|by apply Hge].
    unfold ExactNumber.min. case_decide; [done|]. by apply (bool_decide_unpack _).
  - intros H1. apply Qcle_antisym; [done|].
    eapply Qcle_trans; [|apply Hge].
    + unfold ExactNumber.min. case_decide as Hlt; [|apply Qcle_refl].
      exfalso. by apply (Qclt_not_le _ _ Hlt).
    + eapply Qcle_trans; [|exact H1]. by apply (bool_decide_unpack _).
Qed.

(** The p-values 0.1, 0.15 and 0.173 in binary64: the third adjusted
    value, [0.173 * 3 / 3], is rounded to 0.17299999999999996, below the
    p-value itself, and all three lie between 0 and 1. *)
Lemma benjaminiHochberg_bounds_binary64 :
  benjaminiHochberg [0.1; 0.15; 0.173]%float
  = Some [Some 0.30000000000000004; Some 0.22499999999999998;
          Some 0.17299999999999996]%float
  ∧ nlt 0.17299999999999996%float 0.173%float = true
  ∧ Forall (λ q, nle 0%float q = true ∧ nle q 1%float = true)
      [0.30000000000000004; 0.22499999999999998; 0.17299999999999996]%float.
Proof.
  split; [vm_compute; reflexivity|]. split; [vm_compute; reflexivity|].
  repeat constructor.
Qed.

(** In exact arithmetic a single p-value is adjusted to itself, clamped
    to 1. *)
Theorem benjaminiHochberg_single (p : Qc) :
  benjaminiHochberg [p] = Some [Some (ExactNumber.min 1 p)].
Proof.
  destruct (benjaminiHochberg_slot [p]) as (out & Hout & Hlen & Hslot).
  rewrite Hout. f_equal.
  destruct (Hslot 0%nat p eq_refl) as (k & Hk & Hq).
  simpl in Hk. assert (k = 0%nat) as -> by lia.
  destruct out as [|q [|]]; [done| |done].
  simpl in Hq. injection Hq as ->. do 2 f_equal.
  unfold bh_value. simpl. rewrite Z2Qc_inj_1. f_equal.
  change (Qc_of_Z (Z.of_nat 1)) with (Qc_of_Z 1).
  change (Qc_of_Z (Z.of_nat 0 + 1)) with (Qc_of_Z 1).
  rewrite Z2Qc_inj_1, Qcmult_1_r. apply Qcdiv_right_id.
Qed.

(** ** The cutoff as a function of the threshold *)

Section cutoff_facts.
Context `{Number A}.

(* The loop stops at the first index [r] from [k] on where the test
   succeeds, or runs to the end, and returns the entry this index
   stands for. *)
Lemma pvalue_loop_index (sorted : list (datum A)) (m : nat) (fdrT : A)
    (fuel k : nat) :
  (k + fuel)%nat = length sorted → m = length sorted →
  ∃ r, (k ≤ r ≤ k + fuel)%nat
    ∧ (∀ j d, (k ≤ j < r)%nat → sorted !! j = Some d →
         exceeds m fdrT j (pval d) = false)
    ∧ ((r < k + fuel)%nat →
         ∃ d, sorted !! r = Some d ∧ exceeds m fdrT r (pval d) = true)
    ∧ pvalue_loop sorted m fdrT fuel k
      = pval <$> (if decide (r = (k + fuel)%nat)
                  then array_get sorted (Z.of_nat m - 1)
                  else sorted !! (r - 1)%nat).
Proof.
  intros Hlen ->. revert k Hlen.
  induction fuel as [|fuel IH]; intros k Hlen.
  - exists k. split_and!; [lia|lia|intros; lia|lia|].
    simpl. by rewrite decide_True by lia.
  - destruct (lookup_lt_is_Some_2 sorted k) as [d Hd]; [lia|].
    destruct (exceeds (length sorted) fdrT k (pval d)) eqn:Hex.
    + exists k. split_and!; [lia|lia|intros; lia|eauto|].
      rewrite decide_False by lia.
      rewrite (pvalue_loop_hit sorted _ fdrT (S fuel) k k d); [|lia|done..|].
      * case_decide as Hk; [by subst|done].
      * intros; lia.
    + destruct (IH (S k)) as (r & Hr & Hbelow & Hat & Hres); [lia|].
      exists r. split_and!; [lia|lia| | |].
      * intros j dj Hj Hdj. destruct (decide (j = k)) as [->|Hne].
        -- by replace dj with d by congruence.
        -- apply Hbelow; [lia|done].
      * intros Hlt. apply Hat. lia.
      * cbn [pvalue_loop]. rewrite Hd. simpl.
        fold (exceeds (length sorted) fdrT k (pval d)). rewrite Hex, Hres.
        by replace (S k + fuel)%nat with (k + S fuel)%nat by lia.
Qed.

(** The cutoff lookup throws on an empty dataset and on no other, and
    what it returns is the p-value of one of the points. *)
Theorem pvalueAtFdrThreshold_defined (data : list (datum A)) (fdrT : A) :
  (pvalueAtFdrThreshold data fdrT = None ↔ data = [])
  ∧ ∀ p, pvalueAtFdrThreshold data fdrT = Some p → p ∈ pval <$> data.
Proof.
  split.
  - split.
    + intros Hnone. destruct data as [|d data]; [done|].
      assert (is_Some (pvalueAtFdrThreshold (d :: data) fdrT)) as [p Hp];
        [|congruence].
      unfold pvalueAtFdrThreshold. apply pvalue_loop_is_Some; [|done].
      intros Hnil. apply (Permutation_nil_cons (x:=d) (l:=data)).
      by rewrite <-Hnil, sort_perm.
    + by intros ->.
  - intros p. unfold pvalueAtFdrThreshold.
    set (sorted := sort _ data).
    destruct (pvalue_loop_index sorted (length sorted) fdrT (length sorted) 0)
      as (r & _ & _ & _ & ->); [done..|].
    intros Hp.
    assert (∃ d, d ∈ sorted ∧ pval d = p) as (d & Hd & <-).
    { apply fmap_Some in Hp as (d & Hd & ->). exists d. split; [|done].
      case_decide.
      - unfold array_get in Hd. case_match; [done|].
        by eapply list_elem_of_lookup_2.
      - by eapply list_elem_of_lookup_2. }
    apply list_elem_of_fmap_2. unfold sorted in Hd. by rewrite sort_perm in Hd.
Qed.

End cutoff_facts.

Lemma StronglySorted_lookup_le (l : list Qc) (i j : nat) (a b : Qc) :
  StronglySorted Qcle l → (i ≤ j)%nat →
  l !! i = Some a → l !! j = Some b → (a ≤ b)%Qc.
Proof.
  intros Hsorted. revert i j.
  induction Hsorted as [|x l _ IH Hall]; intros i j Hij Ha Hb; [done|].
  destruct i as [|i], j as [|j]; simpl in *; try lia.
  - injection Ha as <-. injection Hb as <-. apply Qcle_refl.
  - injection Ha as <-. eapply (proj1 (Forall_forall _ _) Hall).
    by eapply list_elem_of_lookup_2.
  - apply (IH i j); [lia|done..].
Qed.

(** In exact arithmetic the cutoff never falls when the FDR threshold is
    raised. *)
Theorem pvalueAtFdrThreshold_monotone (data : list (datum Qc))
    (fdrT fdrT' p p' : Qc) :
  (fdrT ≤ fdrT')%Qc →
  pvalueAtFdrThreshold data fdrT = Some p →
  pvalueAtFdrThreshold data fdrT' = Some p' →
  (p ≤ p')%Qc.
Proof.
  intros HT. unfold pvalueAtFdrThreshold.
  pose proof (sorted_pvals_sorted data) as Hsorted. unfold sorted_pvals in Hsorted.
  set (sorted := sort _ data) in *. clearbody sorted. set (m := length sorted).
  destruct (pvalue_loop_index sorted m fdrT m 0) as (r & Hr & Hbelow & _ & ->);
    [done..|].
  destruct (pvalue_loop_index sorted m fdrT' m 0) as (r' & Hr' & _ & Hat' & ->);
    [done..|].
  assert (Hrr : (r ≤ r')%nat).
  { destruct (decide (r ≤ r')%nat) as [|Hgt]; [done|]. exfalso.
    destruct Hat' as (d & Hd & Hex); [lia|].
    specialize (Hbelow r' d ltac:(lia) Hd).
    apply exceeds_raw_ratio in Hex. apply exceeds_raw_ratio in Hbelow.
    eapply Qclt_not_le; [exact Hex|]. by eapply Qcle_trans. }
  assert (Hidx : ∀ r0 : nat, (r0 ≤ m)%nat → (0 < m)%nat →
    (if decide (r0 = (0 + m)%nat) then array_get sorted (Z.of_nat m - 1)
     else sorted !! (r0 - 1)%nat)
    = sorted !! (if decide (r0 = m) then m - 1 else r0 - 1)%nat).
  { intros r0 Hr0 Hm. simpl. case_decide; [|done].
    by rewrite array_get_pred by lia. }
  intros Hp Hp'.
  assert (0 < m)%nat as Hm.
  { destruct sorted as [|d sorted]; [|unfold m; simpl; lia].
    unfold array_get in Hp. by repeat case_match. }
  rewrite Hidx in Hp, Hp' by lia.
  rewrite <-list_lookup_fmap in Hp, Hp'.
  eapply (StronglySorted_lookup_le _ _ _ _ _ Hsorted); [|exact Hp|exact Hp'].
  repeat case_decide; lia.
Qed.

(** [three_points] with the thresholds 0.05 and 0.1. *)
Lemma pvalueAtFdrThreshold_monotone_witness :
  (num_lit (A:=Qc) (1 # 100) ≤ num_lit (4 # 100))%Qc.
Proof.
  apply (pvalueAtFdrThreshold_monotone three_points
           (num_lit (5 # 100)) (num_lit (1 # 10))).
  - vm_compute. discriminate.
  - exact_eq.
  - exact_eq.
Defined.

(** ** The recurrence on 32-bit states *)

(** On 32-bit states the update loses nothing: two different states
    have different successors, so the generator never merges two
    streams. *)
Theorem lcg_next_injective (s1 s2 : Z) :
  0 ≤ s1 < 2 ^ 32 → 0 ≤ s2 < 2 ^ 32 →
  lcg_next s1 = lcg_next s2 → s1 = s2.
Proof.
  intros Hs1 Hs2. rewrite !lcg_next_uint32 by done. intros Heq.
  assert (Hdiv : ((s1 - s2) * 1664525) mod 2 ^ 32 = 0).
  { replace ((s1 - s2) * 1664525)
      with ((s1 * 1664525 + 1013904223) - (s2 * 1664525 + 1013904223)) by lia.
    rewrite Zminus_mod, Heq, Z.sub_diag. done. }
  apply Z.mod_divide in Hdiv; [|lia]. destruct Hdiv as [q Hq].
  assert (s1 - s2 = 2 ^ 32 * (q * 4276115653 - (s1 - s2) * 1657219)) as Hmul
    by lia.
  lia.
Qed.

(** The largest state, reached twice. *)
Lemma lcg_next_injective_witness : 2 ^ 32 - 1 = 4294967295.
Proof.
  apply (lcg_next_injective (2 ^ 32 - 1) 4294967295); [lia|lia|reflexivity].
Defined.

(** From the second call on, and for any seed that is a 32-bit unsigned
    integer, the update is the exact recurrence
    [(s * 1664525 + 1013904223) mod 2^32]: the product stays below [2^53]
    and nothing is rounded. *)
Theorem lcg_next_exact (s : Z) :
  0 ≤ s < 2 ^ 32 → lcg_next s = (s * 1664525 + 1013904223) mod 2 ^ 32.
Proof. exact (lcg_next_uint32 s). Qed.

(** The state 4294967295, the largest one. *)
Lemma lcg_next_exact_witness :
  lcg_next 4294967295 = (4294967295 * 1664525 + 1013904223) mod 2 ^ 32.
Proof. apply (lcg_next_exact 4294967295). lia. Defined.

(** ** Classification in exact arithmetic *)

Lemma getCategory_exact (d : datum Qc) (fcT fdrT : Qc) :
  getCategory d fcT fdrT
  = if decide ((fdr d ≤ fdrT)%Qc ∧ (fcT ≤ log2FC d)%Qc) then sig_up
    else if decide ((fdr d ≤ fdrT)%Qc ∧ (log2FC d ≤ - fcT)%Qc) then sig_down
    else not_sig.
Proof.
  unfold getCategory, nge. simpl.
  repeat case_decide; repeat case_bool_decide; simpl; tauto.
Qed.

(** With a positive FC threshold the classification is symmetric: the
    point with the opposite effect size gets the opposite category. *)
Theorem getCategory_mirror (d : datum Qc) (fcT fdrT : Qc) :
  (0 < fcT)%Qc →
  getCategory (mirror d) fcT fdrT = opposite (getCategory d fcT fdrT).
Proof.
  intros Hfc. rewrite !getCategory_exact. simpl.
  set (x := log2FC d) in *.
  assert (Hneg : ∀ a b : Qc, (a ≤ - b ↔ b ≤ - a)%Qc) by (intros; split; qc_lra).
  repeat case_decide; simpl; try done; exfalso;
    repeat match goal with
           | H : _ ∧ _ |- _ => destruct H
           | H : ¬ (_ ∧ _) |- _ => apply not_and_l in H as [H|H]
           end;
    try tauto; qc_lra.
Qed.

(** A point that is significant stays in its category when the FDR
    threshold is raised or the FC threshold is lowered, as long as the
    latter stays non-negative. *)
Theorem getCategory_monotone (d : datum Qc) (fcT fcT' fdrT fdrT' : Qc) :
  (fdrT ≤ fdrT')%Qc → (0 ≤ fcT')%Qc → (fcT' ≤ fcT)%Qc →
  getCategory d fcT fdrT ≠ not_sig →
  getCategory d fcT' fdrT' = getCategory d fcT fdrT.
Proof.
  intros HT H0 Hfc. rewrite !getCategory_exact.
  repeat case_decide; simpl; try done; intros _; exfalso;
    repeat match goal with
           | H : _ ∧ _ |- _ => destruct H
           | H : ¬ (_ ∧ _) |- _ => apply not_and_l in H as [H|H]
           end;
    try tauto; qc_lra.
Qed.

(** The first point of [three_points] and its mirror image. *)
Lemma getCategory_mirror_witness :
  let d := point (A:=Qc) (js "TP53_1") (num_of_Z 2) (num_lit (4 # 100)) (num_lit (3 # 100)) in
  getCategory (mirror d) (num_of_Z 1) (num_lit (5 # 100))
  = opposite (getCategory d (num_of_Z 1) (num_lit (5 # 100))).
Proof.
  apply (getCategory_mirror
           (point (js "TP53_1") (num_of_Z 2) (num_lit (4 # 100)) (num_lit (3 # 100)))
           (num_of_Z 1) (num_lit (5 # 100))).
  vm_compute. reflexivity.
Defined.

(** The same point with the thresholds 1 and 0.05, then 0.5 and 0.1. *)
Lemma getCategory_monotone_witness :
  let d := point (A:=Qc) (js "TP53_1") (num_of_Z 2) (num_lit (4 # 100)) (num_lit (3 # 100)) in
  getCategory d (num_lit (1 # 2)) (num_lit (1 # 10))
  = getCategory d (num_of_Z 1) (num_lit (5 # 100)).
Proof.
  apply (getCategory_monotone
           (point (js "TP53_1") (num_of_Z 2) (num_lit (4 # 100)) (num_lit (3 # 100)))
           (num_of_Z 1) (num_lit (1 # 2)) (num_lit (5 # 100)) (num_lit (1 # 10))).
  - vm_compute. discriminate.
  - vm_compute. discriminate.
  - vm_compute. discriminate.
  - vm_compute. discriminate.
Defined.

(** ** Resizable panel *)

(** The panel width set during a drag, in exact arithmetic: it stays in
    the range from 200 to 480 and follows the pointer, never shrinking
    when the pointer is further to the right.  These are statements of
    order, which the rounding of the difference and of the sum keeps. *)
Theorem resize_move_clamped (startX startWidth clientX clientX' : Qc) :
  (clientX ≤ clientX')%Qc →
  (Qc_of_Z 200 ≤ resize_move startX startWidth clientX)%Qc
  ∧ (resize_move startX startWidth clientX
     ≤ resize_move startX startWidth clientX')%Qc
  ∧ (resize_move startX startWidth clientX' ≤ Qc_of_Z 480)%Qc.
Proof.
  intros Hle. unfold resize_move. simpl.
  set (w := (startWidth + (clientX - startX))%Qc).
  set (w' := (startWidth + (clientX' - startX))%Qc).
  assert (Hw : (w ≤ w')%Qc) by (unfold w, w'; qc_lra).
  clearbody w w'.
  unfold ExactNumber.max, ExactNumber.min.
  repeat case_decide; split_and!; qc_lra.
Qed.

(** A drag that starts at [x = 100] with a panel 300 wide: at [x = 150]
    the panel is 350 wide, and at [x = 400] it is 480 wide, the sum 600
    being cut. *)
Lemma resize_move_clamped_witness :
  resize_move (A:=Qc) (num_of_Z 100) (num_of_Z 300) (num_of_Z 150) = num_of_Z 350
  ∧ resize_move (A:=Qc) (num_of_Z 100) (num_of_Z 300) (num_of_Z 400) = num_of_Z 480
  ∧ (Qc_of_Z 200 ≤ resize_move (num_of_Z 100) (num_of_Z 300) (num_of_Z 150))%Qc
  ∧ (resize_move (num_of_Z 100) (num_of_Z 300) (num_of_Z 150)
     ≤ resize_move (num_of_Z 100) (num_of_Z 300) (num_of_Z 400))%Qc
  ∧ (resize_move (num_of_Z 100) (num_of_Z 300) (num_of_Z 400) ≤ Qc_of_Z 480)%Qc.
Proof.
  split; [exact_eq|]. split; [exact_eq|].
  apply (resize_move_clamped (num_of_Z 100) (num_of_Z 300) (num_of_Z 150)
           (num_of_Z 400)).
  vm_compute. discriminate.
Defined.

(** The same in binary64 for a start width of 200.1 and a pointer that
    moved by 0.2: the sum is rounded to 200.29999999999998, inside the
    range. *)
Lemma resize_move_clamped_binary64 :
  resize_move 0%float 200.1%float 0.2%float = 200.29999999999998%float
  ∧ nle 200%float 200.29999999999998%float = true
  ∧ nle 200.29999999999998%float 480%float = true.
Proof. split_and!; vm_compute; reflexivity. Qed.
